(** * DSP_Funks: the Filter and Pass modules

    A shallow embedding of [src/Filter.cpp] and [src/Pass.cpp].

    - C++ [float] is IEEE-754 binary32 and [double] is binary64; both are
      modelled with the Standard Library's executable specification of
      IEEE arithmetic ([SpecFloat]: round to nearest, ties to even), at
      precision 24 / exponent bound 128 and 53 / 1024.
    - A module instance is a record of its data members; every member
      function is a function from the state (and the host values it queries
      during the frame) to the new state and the list of the calls it makes
      on the host's output ports and lights.
    - Every expression is evaluated operation by operation in its C++
      type: no fused multiply-add and no excess precision.
    - The host (VCV Rack) is outside the repository: parameters, input ports
      and output connection flags are read from a per-frame record, and
      [setChannels], [writeVoltages] and [setBrightness] are logged with
      their arguments. *)

From Stdlib Require Import ZArith Bool List Lia Reals Lra.
From Stdlib Require Import Floats.SpecFloat.
Import ListNotations.

Local Open Scope Z_scope.

(** ** IEEE-754 binary32: the C++ type [float] *)

Module F32.
Definition prec : Z := 24.
Definition emax : Z := 128.

Definition float : Type := spec_float.

Definition add : float -> float -> float := SFadd prec emax.
Definition sub : float -> float -> float := SFsub prec emax.
Definition mul : float -> float -> float := SFmul prec emax.
Definition div : float -> float -> float := SFdiv prec emax.
Definition fabs : float -> float := SFabs.

(** Conversion of a C++ [int] to [float]. *)
Definition of_int (n : Z) : float := binary_normalize prec emax n 0 false.

(** The comparisons [a == b], [a > b], [a <= b]; each is false as soon as
    one side is NaN. *)
Definition eqb (a b : float) : bool := SFeqb a b.
Definition gtb (a b : float) : bool :=
  match SFcompare a b with Some Gt => true | _ => false end.
Definition leb (a b : float) : bool := SFleb a b.

(** The literals of the sources. *)
Definition zero : float := S754_zero false.                  (* 0.0f *)
Definition one : float := Eval vm_compute in of_int 1.       (* 1.0f *)
Definition two : float := Eval vm_compute in of_int 2.       (* 2.0f *)

Definition valid (x : float) : bool := valid_binary prec emax x.
End F32.

(** ** IEEE-754 binary64: the C++ type [double] *)

Module F64.
Definition prec : Z := 53.
Definition emax : Z := 1024.

Definition float : Type := spec_float.

Definition mul : float -> float -> float := SFmul prec emax.
Definition div : float -> float -> float := SFdiv prec emax.

(** [M_PI] of <cmath>, 3.14159265358979323846 rounded to binary64:
    bit pattern 0x400921FB54442D18. *)
Definition M_PI : float := S754_finite false 7074237752028440 (-51).

Definition valid (x : float) : bool := valid_binary prec emax x.
End F64.

(** The implicit promotion [float] to [double] of a mixed expression, and
    the conversion [double] to [float] of an initialisation
    [float x = <double expression>]. *)
Definition to_double (x : F32.float) : F64.float :=
  match x with
  | S754_finite s m e => binary_round F64.prec F64.emax s m e
  | _ => x
  end.

Definition to_float (x : F64.float) : F32.float :=
  match x with
  | S754_finite s m e => binary_round F32.prec F32.emax s m e
  | _ => x
  end.

(** [std::vector<float>::resize(n, 0.0f)] when [n] exceeds the size, as
    [Pass::processInput] calls it. *)
Definition resize_grow (n : nat) (vs : list F32.float) : list F32.float :=
  vs ++ repeat F32.zero (n - length vs).

(** The first [n] lanes of a port's voltage array, as [readVoltages] copies
    them out. *)
Definition read_lanes (lane : nat -> F32.float) (n : nat) : list F32.float :=
  map lane (seq 0 n).

(** ** The Filter module ([src/Filter.cpp]) *)

Module Filter.
Import F32.

Inductive OutputId := OUT_1_OUTPUT | OUT_2_OUTPUT | OUT_3_OUTPUT.
Inductive LightId := POWER_LIGHT_LIGHT.

(** A call made on the host. *)
Inductive HostCall :=
| SetChannels (o : OutputId) (n : Z)
| WriteVoltages (o : OutputId) (buf : list float)
| SetBrightness (l : LightId) (b : float).

(** What the host answers during one frame. *)
Record Frame := {
  POWER_PARAM : float;          (* params[POWER_PARAM].getValue() *)
  FRQ_PARAM : float;            (* params[FRQ_PARAM].getValue() *)
  in_connected : bool;          (* inputs[IN_1_INPUT].isConnected() *)
  in_channels : nat;            (* inputs[IN_1_INPUT].getChannels() *)
  in_lane : nat -> float;       (* the input port's voltages *)
  out_connected : OutputId -> bool
}.

(** The data members of [struct Filter]. *)
Record State := {
  voltages : list float;
  state_on : bool;
  last_state : bool;
  prevLowPassSample : float;
  prevHighPassSample : float;
  prevInputSample : float;
  sampleRate : float
}.

(** The members' initial values; [sampleRate] is what the engine reports
    at construction. *)
Definition init (sr : float) : State :=
  {| voltages := []; state_on := false; last_state := false;
     prevLowPassSample := zero; prevHighPassSample := zero;
     prevInputSample := zero; sampleRate := sr |}.

Definition calculateAlpha (cutoff sampleRate : float) : float :=
  let cutoff := fabs cutoff in
  let cutoff :=
    if gtb cutoff (div sampleRate two) then div sampleRate two else cutoff in
  let omega :=
    to_float
      (F64.div (F64.mul (F64.mul (to_double two) F64.M_PI) (to_double cutoff))
               (to_double sampleRate)) in
  div omega (add omega one).

Definition updatePowerState (f : Frame) (s : State) : State * list HostCall :=
  let current_state := eqb (POWER_PARAM f) (of_int 1) in
  let on := if current_state && negb (last_state s)
            then negb (state_on s) else state_on s in
  ({| voltages := voltages s; state_on := on; last_state := current_state;
      prevLowPassSample := prevLowPassSample s;
      prevHighPassSample := prevHighPassSample s;
      prevInputSample := prevInputSample s; sampleRate := sampleRate s |},
   [SetBrightness POWER_LIGHT_LIGHT (if on then one else zero)]).

Definition disableOutput (s : State) : State * list HostCall :=
  (s, [SetChannels OUT_1_OUTPUT 0; SetChannels OUT_2_OUTPUT 0;
       SetChannels OUT_3_OUTPUT 0]).

(** The loop of [ApplyLowPass]: the lanes left to process and the running
    [prevLowPassSample]; returns the rewritten lanes and the final scalar. *)
Fixpoint lowPassLoop (alpha : float) (vs : list float) (prevLow : float)
  : list float * float :=
  match vs with
  | [] => ([], prevLow)
  | x :: rest =>
      let y := add (mul alpha x) (mul (sub one alpha) prevLow) in
      let '(ys, p) := lowPassLoop alpha rest y in
      (y :: ys, p)
  end.

Definition ApplyLowPass (f : Frame) (s : State) : State * list HostCall :=
  if negb (out_connected f OUT_1_OUTPUT) then (s, []) else
  let cutoff := FRQ_PARAM f in
  let alpha := calculateAlpha cutoff (sampleRate s) in
  let '(vs, p) := lowPassLoop alpha (voltages s) (prevLowPassSample s) in
  ({| voltages := vs; state_on := state_on s; last_state := last_state s;
      prevLowPassSample := p;
      prevHighPassSample := prevHighPassSample s;
      prevInputSample := prevInputSample s; sampleRate := sampleRate s |},
   [SetChannels OUT_1_OUTPUT (Z.of_nat (length (voltages s)));
    WriteVoltages OUT_1_OUTPUT vs]).

(** The three scalars the band-pass and high-pass loops thread. *)
Record Prev := {
  pLow : float;      (* prevLowPassSample *)
  pHigh : float;     (* prevHighPassSample *)
  pInput : float     (* prevInputSample *)
}.

Fixpoint bandPassLoop (alphaLow alphaHigh : float) (vs : list float) (p : Prev)
  : list float * Prev :=
  match vs with
  | [] => ([], p)
  | x :: rest =>
      let lowPass := add (mul alphaLow x) (mul (sub one alphaLow) (pLow p)) in
      let highPass := mul alphaHigh (sub (add (pHigh p) x) (pInput p)) in
      let p' := {| pLow := lowPass; pHigh := highPass; pInput := x |} in
      let '(ys, q) := bandPassLoop alphaLow alphaHigh rest p' in
      (sub lowPass highPass :: ys, q)
  end.

Definition ApplyBandPass (f : Frame) (s : State) : State * list HostCall :=
  if negb (out_connected f OUT_2_OUTPUT) then (s, []) else
  let cutoff := FRQ_PARAM f in
  let lowCutoff := fabs (sub cutoff (of_int 5)) in
  let highCutoff := fabs (add cutoff (of_int 5)) in
  let alphaLow := calculateAlpha lowCutoff (sampleRate s) in
  let alphaHigh := calculateAlpha highCutoff (sampleRate s) in
  let '(vs, q) :=
    bandPassLoop alphaLow alphaHigh (voltages s)
      {| pLow := prevLowPassSample s; pHigh := prevHighPassSample s;
         pInput := prevInputSample s |} in
  ({| voltages := vs; state_on := state_on s; last_state := last_state s;
      prevLowPassSample := pLow q;
      prevHighPassSample := pHigh q;
      prevInputSample := pInput q; sampleRate := sampleRate s |},
   [SetChannels OUT_2_OUTPUT (Z.of_nat (length (voltages s)));
    WriteVoltages OUT_2_OUTPUT vs]).

(** The loop of [ApplyHighPass]: [voltages[i]] is overwritten first, and
    both scalars are then assigned from the overwritten lane. *)
Fixpoint highPassLoop (alpha : float) (vs : list float) (p : Prev)
  : list float * Prev :=
  match vs with
  | [] => ([], p)
  | x :: rest =>
      let y := mul alpha (sub (add (pHigh p) x) (pInput p)) in
      let p' := {| pLow := pLow p; pHigh := y; pInput := y |} in
      let '(ys, q) := highPassLoop alpha rest p' in
      (y :: ys, q)
  end.

Definition ApplyHighPass (f : Frame) (s : State) : State * list HostCall :=
  if negb (out_connected f OUT_3_OUTPUT) then (s, []) else
  let cutoff := FRQ_PARAM f in
  let alpha := calculateAlpha cutoff (sampleRate s) in
  let '(vs, q) :=
    highPassLoop alpha (voltages s)
      {| pLow := prevLowPassSample s; pHigh := prevHighPassSample s;
         pInput := prevInputSample s |} in
  ({| voltages := vs; state_on := state_on s; last_state := last_state s;
      prevLowPassSample := pLow q;
      prevHighPassSample := pHigh q;
      prevInputSample := pInput q; sampleRate := sampleRate s |},
   [SetChannels OUT_3_OUTPUT (Z.of_nat (length (voltages s)));
    WriteVoltages OUT_3_OUTPUT vs]).

Definition GetInput (f : Frame) (s : State) : State * list HostCall :=
  let vs := if in_connected f then read_lanes (in_lane f) (in_channels f)
            else [] in
  ({| voltages := vs; state_on := state_on s; last_state := last_state s;
      prevLowPassSample := prevLowPassSample s;
      prevHighPassSample := prevHighPassSample s;
      prevInputSample := prevInputSample s; sampleRate := sampleRate s |},
   []).

(** Sequencing of two member calls: the state is threaded and the host
    calls are appended in order. *)
Definition andThen (a b : State -> State * list HostCall) (s : State)
  : State * list HostCall :=
  let '(s1, l1) := a s in
  let '(s2, l2) := b s1 in
  (s2, l1 ++ l2).

Infix ";;" := andThen (at level 61, right associativity).

Definition process (f : Frame) : State -> State * list HostCall :=
  updatePowerState f ;;
  (fun s =>
     if negb (state_on s) then disableOutput s
     else (GetInput f ;; ApplyLowPass f ;; ApplyBandPass f ;; ApplyHighPass f) s).
End Filter.

(** ** The Pass module ([src/Pass.cpp]) *)

Module Pass.
Import F32.

Inductive InputId := IN_1_INPUT | IN_2_INPUT | IN_3_INPUT.
Inductive OutputId := OUT_1_OUTPUT.
Inductive LightId := POWER_LIGHT_LIGHT | SUM_LIGHT_LIGHT | AVG_LIGHT_LIGHT.

Inductive HostCall :=
| SetChannels (o : OutputId) (n : Z)
| WriteVoltages (o : OutputId) (buf : list float)
| SetBrightness (l : LightId) (b : float).

(** An input port as the host presents it during one frame. *)
Record Input := {
  isConnected : bool;
  getChannels : nat;
  lane : nat -> float
}.

(** What the host answers during one frame. *)
Record Frame := {
  POWER_PARAM : float;
  SUM_PARAM : float;
  AVG_PARAM : float;
  inputs : InputId -> Input
}.

(** The data members of [struct Pass].  [num_channels] is an [int]:
    [processInputs] resets it and adds three channel counts, so it stays
    far from the bounds of the type. *)
Record State := {
  num_channels : Z;
  voltages : list float;
  state_on : bool;
  last_state : bool;
  state_on_avg : bool;
  last_state_avg : bool;
  state_on_sum : bool;
  last_state_sum : bool
}.

Definition init : State :=
  {| num_channels := 0; voltages := []; state_on := false;
     last_state := false; state_on_avg := false; last_state_avg := false;
     state_on_sum := false; last_state_sum := false |}.

Definition updatePowerState (f : Frame) (s : State) : State * list HostCall :=
  let current_state := eqb (POWER_PARAM f) (of_int 1) in
  let on := if current_state && negb (last_state s)
            then negb (state_on s) else state_on s in
  ({| num_channels := num_channels s; voltages := voltages s;
      state_on := on; last_state := current_state;
      state_on_avg := state_on_avg s; last_state_avg := last_state_avg s;
      state_on_sum := state_on_sum s; last_state_sum := last_state_sum s |},
   [SetBrightness POWER_LIGHT_LIGHT (if on then one else zero)]).

Definition updateModeStates (f : Frame) (s : State) : State * list HostCall :=
  let current_state_sum := eqb (SUM_PARAM f) (of_int 1) in
  let '(sum1, avg1) :=
    if current_state_sum && negb (last_state_sum s)
    then (true, false) else (state_on_sum s, state_on_avg s) in
  let current_state_avg := eqb (AVG_PARAM f) (of_int 1) in
  let '(sum2, avg2) :=
    if current_state_avg && negb (last_state_avg s)
    then (false, true) else (sum1, avg1) in
  ({| num_channels := num_channels s; voltages := voltages s;
      state_on := state_on s; last_state := last_state s;
      state_on_avg := avg2; last_state_avg := current_state_avg;
      state_on_sum := sum2; last_state_sum := current_state_sum |},
   [SetBrightness SUM_LIGHT_LIGHT (if sum2 then one else zero);
    SetBrightness AVG_LIGHT_LIGHT (if avg2 then one else zero)]).

(** The loop of [processInput]: [voltages[i] += inputVoltages[i]] for the
    lanes [i, i + n). *)
Fixpoint addLanes (inputVoltages : nat -> float) (i n : nat) (vs : list float)
  : list float :=
  match n, vs with
  | S n', v :: rest => add v (inputVoltages i) :: addLanes inputVoltages (S i) n' rest
  | _, _ => vs
  end.

(** [processInput] on the pair of members it updates. *)
Definition processInput (input : Input) (acc : list float * Z)
  : list float * Z :=
  let '(vs, n) := acc in
  if negb (isConnected input) then (vs, n) else
  let channels := getChannels input in
  let vs := if (length vs <? channels)%nat then resize_grow channels vs else vs in
  (addLanes (lane input) 0 channels vs, n + Z.of_nat channels).

Definition processInputs (f : Frame) (s : State) : State * list HostCall :=
  let '(vs, n) :=
    processInput (inputs f IN_3_INPUT)
      (processInput (inputs f IN_2_INPUT)
         (processInput (inputs f IN_1_INPUT) ([], 0))) in
  ({| num_channels := n; voltages := vs;
      state_on := state_on s; last_state := last_state s;
      state_on_avg := state_on_avg s; last_state_avg := last_state_avg s;
      state_on_sum := state_on_sum s; last_state_sum := last_state_sum s |},
   []).

Definition applyAverage (s : State) : State * list HostCall :=
  ({| num_channels := num_channels s;
      voltages := map (fun voltage => div voltage (of_int (num_channels s)))
                      (voltages s);
      state_on := state_on s; last_state := last_state s;
      state_on_avg := state_on_avg s; last_state_avg := last_state_avg s;
      state_on_sum := state_on_sum s; last_state_sum := last_state_sum s |},
   []).

Definition sendOutput (s : State) : State * list HostCall :=
  (s, [SetChannels OUT_1_OUTPUT 1; WriteVoltages OUT_1_OUTPUT (voltages s)]).

Definition disableOutput (s : State) : State * list HostCall :=
  ({| num_channels := num_channels s; voltages := voltages s;
      state_on := state_on s; last_state := last_state s;
      state_on_avg := false; last_state_avg := last_state_avg s;
      state_on_sum := false; last_state_sum := last_state_sum s |},
   [SetChannels OUT_1_OUTPUT 0;
    SetBrightness SUM_LIGHT_LIGHT zero; SetBrightness AVG_LIGHT_LIGHT zero]).

Definition andThen (a b : State -> State * list HostCall) (s : State)
  : State * list HostCall :=
  let '(s1, l1) := a s in
  let '(s2, l2) := b s1 in
  (s2, l1 ++ l2).

Definition skip (s : State) : State * list HostCall := (s, []).

(** [if (c) body] on the current state. *)
Definition when (c : State -> bool) (body : State -> State * list HostCall)
    (s : State) : State * list HostCall :=
  if c s then body s else skip s.

Infix ";;" := andThen (at level 61, right associativity).

Definition process (f : Frame) : State -> State * list HostCall :=
  updatePowerState f ;;
  (fun s =>
     if negb (state_on s) then disableOutput s
     else
       (updateModeStates f ;;
        when (fun s => state_on_sum s || state_on_avg s) (processInputs f) ;;
        when (fun s => 0 <? num_channels s)
             (when state_on_avg applyAverage ;; sendOutput)) s).

(** A run of the module: the frames in order, from a given state; the host
    calls of all frames are collected. *)
Fixpoint run (fs : list Frame) (s : State) : State * list HostCall :=
  match fs with
  | [] => (s, [])
  | f :: rest =>
      let '(s1, l1) := process f s in
      let '(s2, l2) := run rest s1 in
      (s2, l1 ++ l2)
  end.
End Pass.

(** ** Vocabulary of the statements *)

(** Integer literals converted to [float]; every integer used below is exactly
    representable in binary32. *)
Definition f32 (n : Z) : F32.float := F32.of_int n.

Definition is_nan (x : spec_float) : bool :=
  match x with S754_nan => true | _ => false end.

(** Finite and strictly positive. *)
Definition is_finite_pos (x : spec_float) : bool :=
  match x with S754_finite false _ _ => true | _ => false end.

(** [min(a, b)], with the comparison [calculateAlpha] makes. *)
Definition fmin (a b : F32.float) : F32.float := if F32.gtb a b then b else a.

(** [omega = 2 pi c / sampleRate], evaluated as the C++ expression is: in
    [double], then narrowed to [float]. *)
Definition omega_of (c sampleRate : F32.float) : F32.float :=
  to_float (F64.div (F64.mul (F64.mul (to_double F32.two) F64.M_PI) (to_double c))
                    (to_double sampleRate)).

Definition two_pi : F64.float := F64.mul (to_double F32.two) F64.M_PI.

(** ** Vocabulary of the rounding lemmas *)

(** Some bit shifted out so far was set. *)
Definition inexact (mrs : shr_record) : bool := shr_r mrs || shr_s mrs.

Definition bpow (e : Z) : R := powerRZ 2 e.

(** The real number a float stands for (0 for the infinities and NaN). *)
Definition B2R (x : spec_float) : R :=
  match x with
  | S754_finite s m e => IZR (cond_Zopp s (Zpos m)) * bpow e
  | _ => 0
  end.

(** A float that is [+0], or finite, positive and canonical in the format,
    of value at most [2^k]. *)
Definition nonneg_below (prec emax : Z) (x : spec_float) (k : Z) : Prop :=
  x = S754_zero false \/
  exists m e, x = S754_finite false m e /\ bounded prec emax m e = true /\
              (IZR (Zpos m) * bpow e <= bpow k)%R.

Abbreviation below32 := (nonneg_below F32.prec F32.emax).
Abbreviation below64 := (nonneg_below F64.prec F64.emax).

(** The number of strict rising edges of a sequence of raw control values,
    [prev] being the raw value before the first one. *)
Fixpoint rising_edges (prev : bool) (raws : list bool) : nat :=
  match raws with
  | [] => 0
  | r :: rest => ((if r && negb prev then 1 else 0) + rising_edges r rest)%nat
  end.

(** The number of changes of value along a sequence that starts from [prev]. *)
Fixpoint flips (prev : bool) (l : list bool) : nat :=
  match l with
  | [] => 0
  | b :: rest => ((if Bool.eqb prev b then 0 else 1) + flips b rest)%nat
  end.

(** The states a module goes through when [updatePowerState] is called once
    per frame. *)
Fixpoint filterPowerTrace (fs : list Filter.Frame) (s : Filter.State)
  : list Filter.State :=
  match fs with
  | [] => []
  | f :: rest =>
      let s' := fst (Filter.updatePowerState f s) in
      s' :: filterPowerTrace rest s'
  end.

Fixpoint passPowerTrace (fs : list Pass.Frame) (s : Pass.State)
  : list Pass.State :=
  match fs with
  | [] => []
  | f :: rest =>
      let s' := fst (Pass.updatePowerState f s) in
      s' :: passPowerTrace rest s'
  end.

(** The raw control value [updatePowerState] reads in a frame. *)
Definition filterRaw (f : Filter.Frame) : bool :=
  F32.eqb (Filter.POWER_PARAM f) (F32.of_int 1).

Definition passRaw (f : Pass.Frame) : bool :=
  F32.eqb (Pass.POWER_PARAM f) (F32.of_int 1).

(** At most one of the two mode flags is set. *)
Definition modesExclusive (s : Pass.State) : bool :=
  negb (Pass.state_on_sum s && Pass.state_on_avg s).

(** A member function that leaves both mode flags as they are. *)
Definition keepsModes (a : Pass.State -> Pass.State * list Pass.HostCall) : Prop :=
  forall s, Pass.state_on_sum (fst (a s)) = Pass.state_on_sum s /\
            Pass.state_on_avg (fst (a s)) = Pass.state_on_avg s.

(** A connected one-lane port carrying [v], and a disconnected port. *)
Definition monoInput (v : F32.float) : Pass.Input :=
  {| Pass.isConnected := true; Pass.getChannels := 1; Pass.lane := fun _ => v |}.

Definition noInput : Pass.Input :=
  {| Pass.isConnected := false; Pass.getChannels := 0;
     Pass.lane := fun _ => F32.zero |}.

(** A connected three-lane port carrying 1.0, 2.0, 3.0. *)
Definition polyInput : Pass.Input :=
  {| Pass.isConnected := true; Pass.getChannels := 3;
     Pass.lane := fun i => f32 (Z.of_nat i + 1) |}.

(** The frame [f] with other input ports. *)
Definition withInputs (f : Pass.Frame) (ins : Pass.InputId -> Pass.Input)
  : Pass.Frame :=
  {| Pass.POWER_PARAM := Pass.POWER_PARAM f; Pass.SUM_PARAM := Pass.SUM_PARAM f;
     Pass.AVG_PARAM := Pass.AVG_PARAM f; Pass.inputs := ins |}.

(** A frame of the Pass module with the given button values and ports. *)
Definition passFrame (power sum avg : Z) (i1 i2 i3 : Pass.Input) : Pass.Frame :=
  {| Pass.POWER_PARAM := f32 power; Pass.SUM_PARAM := f32 sum;
     Pass.AVG_PARAM := f32 avg;
     Pass.inputs := fun i => match i with
                             | Pass.IN_1_INPUT => i1
                             | Pass.IN_2_INPUT => i2
                             | Pass.IN_3_INPUT => i3
                             end |}.

(** A frame of the Filter module: one-lane input [v], all outputs connected. *)
Definition filterFrame (power cutoff : Z) (v : F32.float) : Filter.Frame :=
  {| Filter.POWER_PARAM := f32 power; Filter.FRQ_PARAM := f32 cutoff;
     Filter.in_connected := true; Filter.in_channels := 1;
     Filter.in_lane := fun _ => v;
     Filter.out_connected := fun _ => true |}.

(** A Filter state at 44100 Hz holding the buffer [vs], all filter scalars 0. *)
Definition filterState (vs : list F32.float) : Filter.State :=
  {| Filter.voltages := vs; Filter.state_on := true; Filter.last_state := false;
     Filter.prevLowPassSample := F32.zero; Filter.prevHighPassSample := F32.zero;
     Filter.prevInputSample := F32.zero; Filter.sampleRate := f32 44100 |}.

(** The scalars of a Filter state as the loops thread them. *)
Definition prevOf (s : Filter.State) : Filter.Prev :=
  {| Filter.pLow := Filter.prevLowPassSample s;
     Filter.pHigh := Filter.prevHighPassSample s;
     Filter.pInput := Filter.prevInputSample s |}.

(** The frames of a session of the Pass module: power and sum are pressed
    with 4.0 and 2.0 on the first two ports, the buttons are released, the
    module is powered off, and powered on again with no mode selected. *)
Definition staleSession : list Pass.Frame :=
  [passFrame 1 1 0 (monoInput (f32 4)) (monoInput (f32 2)) noInput;
   passFrame 0 0 0 (monoInput (f32 4)) (monoInput (f32 2)) noInput;
   passFrame 1 0 0 noInput noInput noInput;
   passFrame 0 0 0 noInput noInput noInput].

Definition staleState : Pass.State := fst (Pass.run staleSession Pass.init).


(** ** Vocabulary of Part III *)

(** A zero or a finite number: neither an infinity nor NaN. *)
Definition is_finite (x : spec_float) : bool :=
  match x with
  | S754_zero _ | S754_finite _ _ _ => true
  | _ => false
  end.

Definition is_zero (x : spec_float) : bool :=
  match x with S754_zero _ => true | _ => false end.

(** [y] is [x], or both are zeros (of any sign). *)
Definition sameNumber (y x : spec_float) : Prop :=
  y = x \/ (is_zero y = true /\ is_zero x = true).

(** The number of lanes a powered-on frame of the Filter module works on. *)
Definition laneCount (f : Filter.Frame) : nat :=
  if Filter.in_connected f then Filter.in_channels f else 0%nat.

(** A host call on a connected output that announces [n] channels or passes
    a buffer of [n] lanes; calls on lights are not constrained. *)
Definition laneCall (f : Filter.Frame) (n : nat) (c : Filter.HostCall) : Prop :=
  match c with
  | Filter.SetChannels o k => Filter.out_connected f o = true /\ k = Z.of_nat n
  | Filter.WriteVoltages o buf => Filter.out_connected f o = true /\ length buf = n
  | Filter.SetBrightness _ _ => True
  end.

(** The Filter state [s] with another buffer. *)
Definition withVoltages (s : Filter.State) (vs : list F32.float) : Filter.State :=
  {| Filter.voltages := vs; Filter.state_on := Filter.state_on s;
     Filter.last_state := Filter.last_state s;
     Filter.prevLowPassSample := Filter.prevLowPassSample s;
     Filter.prevHighPassSample := Filter.prevHighPassSample s;
     Filter.prevInputSample := Filter.prevInputSample s;
     Filter.sampleRate := Filter.sampleRate s |}.

(** The frame [f] with another cutoff parameter. *)
Definition withCutoff (f : Filter.Frame) (c : F32.float) : Filter.Frame :=
  {| Filter.POWER_PARAM := Filter.POWER_PARAM f; Filter.FRQ_PARAM := c;
     Filter.in_connected := Filter.in_connected f;
     Filter.in_channels := Filter.in_channels f;
     Filter.in_lane := Filter.in_lane f;
     Filter.out_connected := Filter.out_connected f |}.

(** The channels a port of the Pass module contributes: none when it is
    disconnected. *)
Definition portChannels (p : Pass.Input) : nat :=
  if Pass.isConnected p then Pass.getChannels p else 0%nat.

(** Lane [i] of the accumulator after the port [p] has been added to it. *)
Definition addPort (p : Pass.Input) (i : nat) (acc : F32.float) : F32.float :=
  if (i <? portChannels p)%nat then F32.add acc (Pass.lane p i) else acc.

(** Lane [i] of the sum of the three ports, added in port order from 0.0. *)
Definition sumLane (f : Pass.Frame) (i : nat) : F32.float :=
  addPort (Pass.inputs f Pass.IN_3_INPUT) i
    (addPort (Pass.inputs f Pass.IN_2_INPUT) i
       (addPort (Pass.inputs f Pass.IN_1_INPUT) i F32.zero)).

Definition totalChannels (f : Pass.Frame) : nat :=
  (portChannels (Pass.inputs f Pass.IN_1_INPUT)
   + portChannels (Pass.inputs f Pass.IN_2_INPUT)
   + portChannels (Pass.inputs f Pass.IN_3_INPUT))%nat.

Definition maxChannels (f : Pass.Frame) : nat :=
  Nat.max (Nat.max (portChannels (Pass.inputs f Pass.IN_1_INPUT))
                   (portChannels (Pass.inputs f Pass.IN_2_INPUT)))
          (portChannels (Pass.inputs f Pass.IN_3_INPUT)).

(** A call on the output port (not on a light). *)
Definition isPortCall (c : Pass.HostCall) : bool :=
  match c with
  | Pass.SetBrightness _ _ => false
  | _ => true
  end.

(** The buffer is never longer than the channel total. *)
Definition bufferWithinTotal (s : Pass.State) : Prop :=
  Z.of_nat (length (Pass.voltages s)) <= Pass.num_channels s.

(** A member function of the Pass module that keeps the property [P]. *)
Definition preserves (P : Pass.State -> Prop)
    (a : Pass.State -> Pass.State * list Pass.HostCall) : Prop :=
  forall s, P s -> P (fst (a s)).
(** * Part I: state and control *)

Section StateAndControl.
Import F32.

(** ** The filter scalars *)

Lemma lowPassLoop_app alpha vs ws p :
  Filter.lowPassLoop alpha (vs ++ ws) p =
  (fst (Filter.lowPassLoop alpha vs p)
     ++ fst (Filter.lowPassLoop alpha ws (snd (Filter.lowPassLoop alpha vs p))),
   snd (Filter.lowPassLoop alpha ws (snd (Filter.lowPassLoop alpha vs p)))).
Proof.
  revert p. induction vs as [|x vs IH]; intros p; cbn [Filter.lowPassLoop app].
  - cbn [fst snd app]. now destruct (Filter.lowPassLoop alpha ws p).
  - rewrite IH.
    destruct (Filter.lowPassLoop alpha vs _) as [ys q]. cbn [fst snd].
    destruct (Filter.lowPassLoop alpha ws q) as [zs r]. reflexivity.
Qed.

Lemma bandPassLoop_app aL aH vs ws p :
  Filter.bandPassLoop aL aH (vs ++ ws) p =
  (fst (Filter.bandPassLoop aL aH vs p)
     ++ fst (Filter.bandPassLoop aL aH ws (snd (Filter.bandPassLoop aL aH vs p))),
   snd (Filter.bandPassLoop aL aH ws (snd (Filter.bandPassLoop aL aH vs p)))).
Proof.
  revert p. induction vs as [|x vs IH]; intros p; cbn [Filter.bandPassLoop app].
  - cbn [fst snd app]. now destruct (Filter.bandPassLoop aL aH ws p).
  - rewrite IH.
    destruct (Filter.bandPassLoop aL aH vs _) as [ys q]. cbn [fst snd].
    destruct (Filter.bandPassLoop aL aH ws q) as [zs r]. reflexivity.
Qed.

Lemma highPassLoop_app alpha vs ws p :
  Filter.highPassLoop alpha (vs ++ ws) p =
  (fst (Filter.highPassLoop alpha vs p)
     ++ fst (Filter.highPassLoop alpha ws (snd (Filter.highPassLoop alpha vs p))),
   snd (Filter.highPassLoop alpha ws (snd (Filter.highPassLoop alpha vs p)))).
Proof.
  revert p. induction vs as [|x vs IH]; intros p; cbn [Filter.highPassLoop app].
  - cbn [fst snd app]. now destruct (Filter.highPassLoop alpha ws p).
  - rewrite IH.
    destruct (Filter.highPassLoop alpha vs _) as [ys q]. cbn [fst snd].
    destruct (Filter.highPassLoop alpha ws q) as [zs r]. reflexivity.
Qed.

(** A stage whose output is disconnected does nothing at all. *)
Lemma ApplyBandPass_disconnected f s :
  Filter.out_connected f Filter.OUT_2_OUTPUT = false ->
  Filter.ApplyBandPass f s = (s, []).
Proof. intros H. unfold Filter.ApplyBandPass. now rewrite H. Qed.

Lemma ApplyLowPass_disconnected f s :
  Filter.out_connected f Filter.OUT_1_OUTPUT = false ->
  Filter.ApplyLowPass f s = (s, []).
Proof. intros H. unfold Filter.ApplyLowPass. now rewrite H. Qed.

(** On an empty buffer a connected stage leaves the filter scalars alone. *)
Lemma ApplyBandPass_empty f s :
  Filter.voltages s = [] ->
  prevOf (fst (Filter.ApplyBandPass f s)) = prevOf s.
Proof.
  intros H. unfold Filter.ApplyBandPass, prevOf.
  destruct (negb _); [reflexivity|]. rewrite H. reflexivity.
Qed.

Lemma ApplyLowPass_empty f s :
  Filter.voltages s = [] ->
  prevOf (fst (Filter.ApplyLowPass f s)) = prevOf s.
Proof.
  intros H. unfold Filter.ApplyLowPass, prevOf.
  destruct (negb _); [reflexivity|]. rewrite H. reflexivity.
Qed.

(** C1, as the claim states it, fails: with 1.0 in a one-lane buffer, a
    cutoff of 250 Hz at 44100 Hz and zeroed scalars, the band-pass stage
    changes the member [prevLowPassSample] that the low-pass stage persists,
    and the low-pass stage changes the accumulator the band-pass stage reads
    (it is the same member). *)
Lemma band_pass_changes_low_pass_state :
  let f := filterFrame 0 250 one in
  let s := filterState [one] in
  Filter.prevLowPassSample (fst (Filter.ApplyBandPass f s))
    <> Filter.prevLowPassSample s /\
  Filter.pLow (prevOf (fst (Filter.ApplyLowPass f s))) <> Filter.pLow (prevOf s).
Proof. split; vm_compute; discriminate. Qed.

(** C1 (amended): the band-pass stage's low-pass accumulator is the very
    member [prevLowPassSample] of the low-pass stage.  With both outputs
    connected and a buffer ending in the lane value [x], the band-pass stage
    overwrites it with [alphaLow * x + (1 - alphaLow) * p] and the low-pass
    stage overwrites it with its last output [alpha * x + (1 - alpha) * p],
    [p] being the same member before that lane; the low-pass stage leaves
    [prevHighPassSample] and [prevInputSample] unchanged. *)
Theorem low_pass_accumulator_is_shared f s vs x :
  Filter.out_connected f Filter.OUT_1_OUTPUT = true ->
  Filter.out_connected f Filter.OUT_2_OUTPUT = true ->
  Filter.voltages s = vs ++ [x] ->
  let cutoff := Filter.FRQ_PARAM f in
  let alpha := Filter.calculateAlpha cutoff (Filter.sampleRate s) in
  let alphaLow :=
    Filter.calculateAlpha (fabs (sub cutoff (of_int 5))) (Filter.sampleRate s) in
  let alphaHigh :=
    Filter.calculateAlpha (fabs (add cutoff (of_int 5))) (Filter.sampleRate s) in
  Filter.prevLowPassSample (fst (Filter.ApplyBandPass f s))
    = add (mul alphaLow x)
          (mul (sub one alphaLow)
               (Filter.pLow
                  (snd (Filter.bandPassLoop alphaLow alphaHigh vs (prevOf s))))) /\
  Filter.prevLowPassSample (fst (Filter.ApplyLowPass f s))
    = add (mul alpha x)
          (mul (sub one alpha)
               (snd (Filter.lowPassLoop alpha vs (Filter.prevLowPassSample s)))) /\
  Filter.prevHighPassSample (fst (Filter.ApplyLowPass f s))
    = Filter.prevHighPassSample s /\
  Filter.prevInputSample (fst (Filter.ApplyLowPass f s))
    = Filter.prevInputSample s.
Proof.
  intros H1 H2 Hv cutoff alpha alphaLow alphaHigh.
  unfold Filter.ApplyBandPass, Filter.ApplyLowPass.
  rewrite H1, H2, Hv. cbn [negb].
  fold cutoff. fold alpha. fold alphaLow. fold alphaHigh.
  change {| Filter.pLow := Filter.prevLowPassSample s;
            Filter.pHigh := Filter.prevHighPassSample s;
            Filter.pInput := Filter.prevInputSample s |} with (prevOf s).
  rewrite bandPassLoop_app, lowPassLoop_app.
  destruct (Filter.bandPassLoop alphaLow alphaHigh vs (prevOf s)) as [ys q].
  destruct (Filter.lowPassLoop alpha vs (Filter.prevLowPassSample s)) as [zs r].
  cbn. repeat split; reflexivity.
Qed.

Lemma low_pass_accumulator_is_shared_witness :
  let f := filterFrame 0 250 one in
  let s := filterState [one] in
  Filter.prevLowPassSample (fst (Filter.ApplyBandPass f s))
    = S754_finite false 9054116 (-28) /\
  Filter.prevLowPassSample (fst (Filter.ApplyLowPass f s))
    = S754_finite false 9232539 (-28).
Proof.
  intros f s.
  destruct (low_pass_accumulator_is_shared f s [] one
              eq_refl eq_refl eq_refl) as (Hb & Hl & _).
  split; [rewrite Hb|rewrite Hl]; vm_compute; reflexivity.
Defined.

(** One more lane through the high-pass loop: the output [y] is computed
    from the lane value [x], and both [prevHighPassSample] and
    [prevInputSample] are then set to [y]. *)
Lemma highPassLoop_last alpha vs x p :
  let q := snd (Filter.highPassLoop alpha vs p) in
  let y := mul alpha (sub (add (Filter.pHigh q) x) (Filter.pInput q)) in
  Filter.highPassLoop alpha (vs ++ [x]) p =
  (fst (Filter.highPassLoop alpha vs p) ++ [y],
   {| Filter.pLow := Filter.pLow q; Filter.pHigh := y; Filter.pInput := y |}).
Proof. intros q y. rewrite highPassLoop_app. reflexivity. Qed.

(** C2 (the code at the failing input): one lane holding 1.0, cutoff 250 Hz
    at 44100 Hz, zeroed scalars.  The lane's output is
    [y = alpha * (0 + 1.0 - 0)] and [prevHighPassSample = y] as claimed, but
    [prevInputSample] is [y] as well, not the lane's value 1.0 before the
    stage. *)
Theorem ApplyHighPass_prevInput_is_output :
  let f := filterFrame 0 250 one in
  let s := filterState [one] in
  let alpha := Filter.calculateAlpha (f32 250) (f32 44100) in
  let y := mul alpha (sub (add zero one) zero) in
  let s' := fst (Filter.ApplyHighPass f s) in
  Filter.voltages s' = [y] /\
  Filter.prevHighPassSample s' = y /\
  Filter.prevInputSample s' = y /\
  y <> one.
Proof. repeat split; vm_compute; discriminate. Qed.

(** The sibling loop of the band-pass stage does record the lane's value
    before it is overwritten. *)
Lemma bandPassLoop_records_input aL aH vs x p :
  Filter.pInput (snd (Filter.bandPassLoop aL aH (vs ++ [x]) p)) = x.
Proof. rewrite bandPassLoop_app. reflexivity. Qed.

(** ** The power toggle *)

(** One call: the latch flips exactly on a strict rising edge, and the raw
    value is recorded. *)
Lemma Filter_updatePowerState_step f s :
  let s' := fst (Filter.updatePowerState f s) in
  Filter.state_on s'
    = xorb (Filter.state_on s) (filterRaw f && negb (Filter.last_state s)) /\
  Filter.last_state s' = filterRaw f.
Proof.
  unfold Filter.updatePowerState, filterRaw. cbn.
  destruct (eqb _ _), (Filter.last_state s), (Filter.state_on s); split; reflexivity.
Qed.

Lemma Pass_updatePowerState_step f s :
  let s' := fst (Pass.updatePowerState f s) in
  Pass.state_on s'
    = xorb (Pass.state_on s) (passRaw f && negb (Pass.last_state s)) /\
  Pass.last_state s' = passRaw f.
Proof.
  unfold Pass.updatePowerState, passRaw. cbn.
  destruct (eqb _ _), (Pass.last_state s), (Pass.state_on s); split; reflexivity.
Qed.

Lemma flip_count (b c : bool) :
  (if Bool.eqb b (xorb b c) then 0 else 1)%nat = (if c then 1 else 0)%nat.
Proof. destruct b, c; reflexivity. Qed.

Lemma Filter_power_trace fs : forall s,
  flips (Filter.state_on s) (map Filter.state_on (filterPowerTrace fs s))
    = rising_edges (Filter.last_state s) (map filterRaw fs) /\
  map Filter.last_state (filterPowerTrace fs s) = map filterRaw fs.
Proof.
  induction fs as [|f fs IH]; intros s; [split; reflexivity|].
  cbn [filterPowerTrace map flips rising_edges].
  destruct (Filter_updatePowerState_step f s) as [Hon Hlast].
  destruct (IH (fst (Filter.updatePowerState f s))) as [IH1 IH2].
  rewrite IH1, IH2, Hlast, Hon, flip_count. split; reflexivity.
Qed.

Lemma Pass_power_trace fs : forall s,
  flips (Pass.state_on s) (map Pass.state_on (passPowerTrace fs s))
    = rising_edges (Pass.last_state s) (map passRaw fs) /\
  map Pass.last_state (passPowerTrace fs s) = map passRaw fs.
Proof.
  induction fs as [|f fs IH]; intros s; [split; reflexivity|].
  cbn [passPowerTrace map flips rising_edges].
  destruct (Pass_updatePowerState_step f s) as [Hon Hlast].
  destruct (IH (fst (Pass.updatePowerState f s))) as [IH1 IH2].
  rewrite IH1, IH2, Hlast, Hon, flip_count. split; reflexivity.
Qed.

(** C4: in both modules, along any sequence of calls of [updatePowerState]
    the latched [state_on] changes exactly as many times as the raw control
    value has strict rising edges, each call changes it exactly when the raw
    value is true and the previous raw value was false (never on a held true,
    a false, or a falling edge), and [last_state] holds the raw value after
    every call. *)
Theorem power_toggle_on_rising_edges :
  (forall (fs : list Filter.Frame) (f : Filter.Frame) (s : Filter.State),
     flips (Filter.state_on s) (map Filter.state_on (filterPowerTrace fs s))
       = rising_edges (Filter.last_state s) (map filterRaw fs) /\
     map Filter.last_state (filterPowerTrace fs s) = map filterRaw fs /\
     Filter.state_on (fst (Filter.updatePowerState f s))
       = xorb (Filter.state_on s) (filterRaw f && negb (Filter.last_state s)) /\
     Filter.last_state (fst (Filter.updatePowerState f s)) = filterRaw f) /\
  (forall (fs : list Pass.Frame) (f : Pass.Frame) (s : Pass.State),
     flips (Pass.state_on s) (map Pass.state_on (passPowerTrace fs s))
       = rising_edges (Pass.last_state s) (map passRaw fs) /\
     map Pass.last_state (passPowerTrace fs s) = map passRaw fs /\
     Pass.state_on (fst (Pass.updatePowerState f s))
       = xorb (Pass.state_on s) (passRaw f && negb (Pass.last_state s)) /\
     Pass.last_state (fst (Pass.updatePowerState f s)) = passRaw f).
Proof.
  split; intros fs f s.
  - destruct (Filter_power_trace fs s), (Filter_updatePowerState_step f s). auto.
  - destruct (Pass_power_trace fs s), (Pass_updatePowerState_step f s). auto.
Qed.

(** The spec's example: raw values F,T,T,F,T from the initial state flip the
    latch twice, after the second and the fifth call. *)
Example power_toggle_FTTFT :
  map Pass.state_on
      (passPowerTrace
         (map (fun p => passFrame p 0 0 noInput noInput noInput) [0; 1; 1; 0; 1])
         Pass.init)
  = [false; true; true; true; false].
Proof. reflexivity. Qed.

(** ** The mode selector *)

Lemma updatePowerState_modes f s :
  Pass.state_on_sum (fst (Pass.updatePowerState f s)) = Pass.state_on_sum s /\
  Pass.state_on_avg (fst (Pass.updatePowerState f s)) = Pass.state_on_avg s.
Proof. split; reflexivity. Qed.

Lemma updateModeStates_exclusive f s :
  modesExclusive s = true ->
  modesExclusive (fst (Pass.updateModeStates f s)) = true.
Proof.
  unfold modesExclusive, Pass.updateModeStates.
  destruct (eqb (Pass.SUM_PARAM f) _ && _), (eqb (Pass.AVG_PARAM f) _ && _);
    cbn; auto.
Qed.

Lemma disableOutput_modes s :
  Pass.state_on_sum (fst (Pass.disableOutput s)) = false /\
  Pass.state_on_avg (fst (Pass.disableOutput s)) = false.
Proof. split; reflexivity. Qed.

Lemma Pass_andThen_eq a b s :
  Pass.andThen a b s
  = (fst (b (fst (a s))), snd (a s) ++ snd (b (fst (a s)))).
Proof.
  unfold Pass.andThen. destruct (a s) as [s1 l1]. cbn [fst snd].
  destruct (b s1) as [s2 l2]. reflexivity.
Qed.

Lemma andThen_keepsModes a b :
  keepsModes a -> keepsModes b -> keepsModes (Pass.andThen a b).
Proof.
  intros Ha Hb s. unfold Pass.andThen.
  destruct (Ha s) as [H1 H2]. destruct (a s) as [s1 l1]. cbn [fst] in *.
  destruct (Hb s1) as [H3 H4]. destruct (b s1) as [s2 l2]. cbn [fst] in *.
  split; congruence.
Qed.

Lemma when_keepsModes c a : keepsModes a -> keepsModes (Pass.when c a).
Proof.
  intros Ha s. unfold Pass.when, Pass.skip.
  destruct (c s); [apply Ha|split; reflexivity].
Qed.

Lemma processInputs_keepsModes f : keepsModes (Pass.processInputs f).
Proof.
  intros s. unfold Pass.processInputs.
  destruct (Pass.processInput _ _) as [vs n]. split; reflexivity.
Qed.

Lemma applyAverage_keepsModes : keepsModes Pass.applyAverage.
Proof. intros s. split; reflexivity. Qed.

Lemma sendOutput_keepsModes : keepsModes Pass.sendOutput.
Proof. intros s. split; reflexivity. Qed.

(** The members a frame leaves to the next one carry the mode flags that
    [updateModeStates] or [disableOutput] computed. *)
Lemma process_modes f s :
  let s1 := fst (Pass.updatePowerState f s) in
  let s2 := if negb (Pass.state_on s1) then fst (Pass.disableOutput s1)
            else fst (Pass.updateModeStates f s1) in
  Pass.state_on_sum (fst (Pass.process f s)) = Pass.state_on_sum s2 /\
  Pass.state_on_avg (fst (Pass.process f s)) = Pass.state_on_avg s2.
Proof.
  intros s1 s2. subst s2 s1.
  unfold Pass.process. rewrite Pass_andThen_eq. cbn [fst].
  destruct (negb (Pass.state_on (fst (Pass.updatePowerState f s))));
    [split; reflexivity|].
  rewrite Pass_andThen_eq. cbn [fst].
  apply andThen_keepsModes.
  - apply when_keepsModes, processInputs_keepsModes.
  - apply when_keepsModes, andThen_keepsModes.
    + apply when_keepsModes, applyAverage_keepsModes.
    + apply sendOutput_keepsModes.
Qed.

Lemma process_exclusive f s :
  modesExclusive s = true -> modesExclusive (fst (Pass.process f s)) = true.
Proof.
  intros H. destruct (process_modes f s) as [Hs Ha].
  unfold modesExclusive. rewrite Hs, Ha.
  destruct (negb (Pass.state_on (fst (Pass.updatePowerState f s)))).
  - reflexivity.
  - apply (updateModeStates_exclusive f (fst (Pass.updatePowerState f s))).
    exact H.
Qed.

Lemma run_exclusive fs : forall s,
  modesExclusive s = true -> modesExclusive (fst (Pass.run fs s)) = true.
Proof.
  induction fs as [|f fs IH]; intros s H; [exact H|].
  cbn [Pass.run]. pose proof (process_exclusive f s H) as H1.
  destruct (Pass.process f s) as [s1 l1]. cbn [fst] in H1.
  specialize (IH s1 H1). destruct (Pass.run fs s1) as [s2 l2]. exact IH.
Qed.

(** C5: after any sequence of frames from the initial state, at most one
    of [state_on_sum] and [state_on_avg] is true; in the next frame this
    still holds after [updateModeStates], and after [disableOutput] (the
    power-off path) both are false. *)
Theorem modes_mutually_exclusive (fs : list Pass.Frame) (f : Pass.Frame) :
  let s := fst (Pass.run fs Pass.init) in
  let s1 := fst (Pass.updatePowerState f s) in
  modesExclusive s = true /\
  modesExclusive (fst (Pass.updateModeStates f s1)) = true /\
  Pass.state_on_sum (fst (Pass.disableOutput s1)) = false /\
  Pass.state_on_avg (fst (Pass.disableOutput s1)) = false.
Proof.
  intros s s1.
  assert (H : modesExclusive s = true) by (apply run_exclusive; reflexivity).
  repeat split; try assumption.
  apply updateModeStates_exclusive. exact H.
Qed.

(** The spec's scenario: sum, then avg, then sum again. *)
Example modes_sum_avg_sum :
  map (fun n => let s := fst (Pass.run
                  (firstn n [passFrame 1 1 0 noInput noInput noInput;
                             passFrame 0 0 1 noInput noInput noInput;
                             passFrame 0 1 0 noInput noInput noInput]) Pass.init) in
                (Pass.state_on_sum s, Pass.state_on_avg s)) [1; 2; 3]%nat
  = [(true, false); (false, true); (true, false)].
Proof. reflexivity. Qed.

(** C10: when both triggers rise in the same call of [updateModeStates],
    average mode wins. *)
Theorem simultaneous_edges_select_average f s :
  eqb (Pass.SUM_PARAM f) (of_int 1) = true ->
  eqb (Pass.AVG_PARAM f) (of_int 1) = true ->
  Pass.last_state_sum s = false ->
  Pass.last_state_avg s = false ->
  Pass.state_on_avg (fst (Pass.updateModeStates f s)) = true /\
  Pass.state_on_sum (fst (Pass.updateModeStates f s)) = false.
Proof.
  intros Hs Ha Hls Hla. unfold Pass.updateModeStates.
  rewrite Hs, Ha, Hls, Hla. split; reflexivity.
Qed.

Lemma simultaneous_edges_select_average_witness :
  let f := passFrame 0 1 1 noInput noInput noInput in
  Pass.state_on_avg (fst (Pass.updateModeStates f Pass.init)) = true /\
  Pass.state_on_sum (fst (Pass.updateModeStates f Pass.init)) = false.
Proof.
  intros f.
  apply (simultaneous_edges_select_average f Pass.init); reflexivity.
Defined.

(** ** The combiner's frame *)

Lemma Pass_when_true c a s : c s = true -> Pass.when c a s = a s.
Proof. intros H. unfold Pass.when. now rewrite H. Qed.

Lemma Pass_when_false c a s : c s = false -> Pass.when c a s = (s, []).
Proof. intros H. unfold Pass.when, Pass.skip. now rewrite H. Qed.

Lemma updateModeStates_buffer f s :
  Pass.num_channels (fst (Pass.updateModeStates f s)) = Pass.num_channels s /\
  Pass.voltages (fst (Pass.updateModeStates f s)) = Pass.voltages s.
Proof.
  unfold Pass.updateModeStates.
  destruct (eqb (Pass.SUM_PARAM f) _ && _), (eqb (Pass.AVG_PARAM f) _ && _);
    split; reflexivity.
Qed.

(** A powered-on frame, from the state [updateModeStates] leaves. *)
Lemma process_powered_on f s :
  Pass.state_on (fst (Pass.updatePowerState f s)) = true ->
  Pass.process f s =
  (fst (Pass.andThen
          (Pass.when (fun s => Pass.state_on_sum s || Pass.state_on_avg s)
                     (Pass.processInputs f))
          (Pass.when (fun s => 0 <? Pass.num_channels s)
                     (Pass.andThen (Pass.when Pass.state_on_avg Pass.applyAverage)
                                   Pass.sendOutput))
          (fst (Pass.updateModeStates f (fst (Pass.updatePowerState f s))))),
   snd (Pass.updatePowerState f s)
   ++ snd (Pass.updateModeStates f (fst (Pass.updatePowerState f s)))
   ++ snd (Pass.andThen
             (Pass.when (fun s => Pass.state_on_sum s || Pass.state_on_avg s)
                        (Pass.processInputs f))
             (Pass.when (fun s => 0 <? Pass.num_channels s)
                        (Pass.andThen (Pass.when Pass.state_on_avg Pass.applyAverage)
                                      Pass.sendOutput))
             (fst (Pass.updateModeStates f (fst (Pass.updatePowerState f s)))))).
Proof.
  intros Hon. unfold Pass.process. rewrite Pass_andThen_eq, Hon. cbn [negb].
  rewrite (Pass_andThen_eq (Pass.updateModeStates f)). reflexivity.
Qed.

Lemma idle_process f s :
  Pass.state_on (fst (Pass.updatePowerState f s)) = true ->
  Pass.state_on_sum (fst (Pass.updateModeStates f (fst (Pass.updatePowerState f s))))
    = false ->
  Pass.state_on_avg (fst (Pass.updateModeStates f (fst (Pass.updatePowerState f s))))
    = false ->
  Pass.process f s =
  (fst (Pass.updateModeStates f (fst (Pass.updatePowerState f s))),
   snd (Pass.updatePowerState f s)
   ++ snd (Pass.updateModeStates f (fst (Pass.updatePowerState f s)))
   ++ (if 0 <? Pass.num_channels s
       then [Pass.SetChannels Pass.OUT_1_OUTPUT 1;
             Pass.WriteVoltages Pass.OUT_1_OUTPUT (Pass.voltages s)]
       else [])).
Proof.
  intros Hon Hsum Havg. rewrite process_powered_on by exact Hon.
  set (s2 := fst (Pass.updateModeStates f (fst (Pass.updatePowerState f s)))) in *.
  rewrite Pass_andThen_eq.
  rewrite (Pass_when_false _ (Pass.processInputs f) s2)
    by (cbv beta; now rewrite Hsum, Havg).
  cbn [fst snd app].
  destruct (updateModeStates_buffer f (fst (Pass.updatePowerState f s)))
    as [Hn Hv].
  fold s2 in Hn, Hv. cbn in Hn, Hv.
  destruct (0 <? Pass.num_channels s) eqn:E.
  - rewrite Pass_when_true by (cbv beta; now rewrite Hn).
    rewrite Pass_andThen_eq.
    rewrite (Pass_when_false _ Pass.applyAverage s2) by exact Havg.
    unfold Pass.sendOutput. cbn [fst snd app]. now rewrite Hv.
  - rewrite Pass_when_false by (cbv beta; now rewrite Hn). reflexivity.
Qed.

(** C8: a powered-on frame in which neither mode is active reads no input
    port (its result is the same whatever the ports hold), leaves [voltages]
    and [num_channels] as the previous frame left them, and, when that
    [num_channels] is positive, still sends the stale buffer to the output. *)
Theorem idle_frame_keeps_stale_buffer f s :
  Pass.state_on (fst (Pass.updatePowerState f s)) = true ->
  Pass.state_on_sum (fst (Pass.updateModeStates f (fst (Pass.updatePowerState f s))))
    = false ->
  Pass.state_on_avg (fst (Pass.updateModeStates f (fst (Pass.updatePowerState f s))))
    = false ->
  (forall ins, Pass.process (withInputs f ins) s = Pass.process f s) /\
  Pass.voltages (fst (Pass.process f s)) = Pass.voltages s /\
  Pass.num_channels (fst (Pass.process f s)) = Pass.num_channels s /\
  (0 < Pass.num_channels s ->
   exists pre,
     snd (Pass.process f s)
     = pre ++ [Pass.SetChannels Pass.OUT_1_OUTPUT 1;
               Pass.WriteVoltages Pass.OUT_1_OUTPUT (Pass.voltages s)]).
Proof.
  intros Hon Hsum Havg. repeat split.
  - intros ins. rewrite (idle_process f s Hon Hsum Havg).
    rewrite (idle_process (withInputs f ins) s Hon Hsum Havg). reflexivity.
  - rewrite (idle_process f s Hon Hsum Havg). cbn [fst].
    now destruct (updateModeStates_buffer f (fst (Pass.updatePowerState f s))).
  - rewrite (idle_process f s Hon Hsum Havg). cbn [fst].
    now destruct (updateModeStates_buffer f (fst (Pass.updatePowerState f s))).
  - intros Hpos. rewrite (idle_process f s Hon Hsum Havg). cbn [snd].
    apply Z.ltb_lt in Hpos. rewrite Hpos.
    eexists. rewrite !app_assoc. reflexivity.
Qed.

(** The stale state is reachable: after [staleSession] the buffer still
    holds the sum 6.0 of two channels, and the next power press sends it. *)
Lemma idle_frame_keeps_stale_buffer_witness :
  let f := passFrame 1 0 0 noInput noInput noInput in
  Pass.voltages staleState = [f32 6] /\ Pass.num_channels staleState = 2 /\
  Pass.voltages (fst (Pass.process f staleState)) = Pass.voltages staleState /\
  exists pre,
    snd (Pass.process f staleState)
    = pre ++ [Pass.SetChannels Pass.OUT_1_OUTPUT 1;
              Pass.WriteVoltages Pass.OUT_1_OUTPUT (Pass.voltages staleState)].
Proof.
  intros f.
  destruct (idle_frame_keeps_stale_buffer f staleState eq_refl eq_refl eq_refl)
    as (_ & Hv & _ & Hout).
  split; [reflexivity|]. split; [reflexivity|]. split; [exact Hv|].
  apply Hout. reflexivity.
Defined.

Lemma applyAverage_num_channels s :
  Pass.num_channels (fst (Pass.applyAverage s)) = Pass.num_channels s.
Proof. reflexivity. Qed.

(** C9: [sendOutput] sets the channel count to 1 and passes the whole
    buffer, whatever its length; a powered-on frame that ends with a
    positive [num_channels] ends with exactly these two calls, the buffer
    being the one the frame leaves in [voltages]. *)
Theorem output_one_channel_whole_buffer f s :
  Pass.state_on (fst (Pass.updatePowerState f s)) = true ->
  0 < Pass.num_channels (fst (Pass.process f s)) ->
  (forall t, snd (Pass.sendOutput t)
             = [Pass.SetChannels Pass.OUT_1_OUTPUT 1;
                Pass.WriteVoltages Pass.OUT_1_OUTPUT (Pass.voltages t)]) /\
  exists pre,
    snd (Pass.process f s)
    = pre ++ [Pass.SetChannels Pass.OUT_1_OUTPUT 1;
              Pass.WriteVoltages Pass.OUT_1_OUTPUT
                (Pass.voltages (fst (Pass.process f s)))].
Proof.
  intros Hon Hpos. split; [reflexivity|].
  rewrite process_powered_on in * by exact Hon. cbn [fst snd] in *.
  set (s2 := fst (Pass.updateModeStates f (fst (Pass.updatePowerState f s)))) in *.
  rewrite Pass_andThen_eq in *. cbn [fst snd] in *.
  set (s3 := fst (Pass.when _ (Pass.processInputs f) s2)) in *.
  set (l3 := snd (Pass.when _ (Pass.processInputs f) s2)) in *.
  destruct (0 <? Pass.num_channels s3) eqn:E.
  - rewrite Pass_when_true by exact E.
    rewrite Pass_andThen_eq. unfold Pass.sendOutput. cbn [fst snd].
    eexists. rewrite !app_assoc. reflexivity.
  - exfalso. rewrite Pass_when_false in Hpos by exact E.
    apply Z.ltb_ge in E. cbn [fst] in Hpos. lia.
Qed.

Lemma output_one_channel_whole_buffer_witness :
  let f := passFrame 1 1 0 polyInput noInput noInput in
  Pass.voltages (fst (Pass.process f Pass.init)) = [f32 1; f32 2; f32 3] /\
  exists pre,
    snd (Pass.process f Pass.init)
    = pre ++ [Pass.SetChannels Pass.OUT_1_OUTPUT 1;
              Pass.WriteVoltages Pass.OUT_1_OUTPUT
                (Pass.voltages (fst (Pass.process f Pass.init)))].
Proof.
  intros f. split; [reflexivity|].
  apply (output_one_channel_whole_buffer f Pass.init); reflexivity.
Defined.

(** C7: powered on, with 4.0 and 2.0 on two connected one-lane ports and
    the third port disconnected, the frame leaves and sends the one-lane
    buffer 3.0 when average mode is active (6.0 divided by the two channels
    counted) and 6.0 when sum mode is active. *)
Theorem two_inputs_average_and_sum f s :
  Pass.state_on (fst (Pass.updatePowerState f s)) = true ->
  Pass.state_on_sum (fst (Pass.updateModeStates f (fst (Pass.updatePowerState f s))))
  || Pass.state_on_avg (fst (Pass.updateModeStates f (fst (Pass.updatePowerState f s))))
  = true ->
  Pass.inputs f Pass.IN_1_INPUT = monoInput (f32 4) ->
  Pass.inputs f Pass.IN_2_INPUT = monoInput (f32 2) ->
  Pass.isConnected (Pass.inputs f Pass.IN_3_INPUT) = false ->
  let out :=
    if Pass.state_on_avg
         (fst (Pass.updateModeStates f (fst (Pass.updatePowerState f s))))
    then f32 3 else f32 6 in
  Pass.voltages (fst (Pass.process f s)) = [out] /\
  Pass.num_channels (fst (Pass.process f s)) = 2 /\
  exists pre,
    snd (Pass.process f s)
    = pre ++ [Pass.SetChannels Pass.OUT_1_OUTPUT 1;
              Pass.WriteVoltages Pass.OUT_1_OUTPUT [out]].
Proof.
  intros Hon Hmode H1 H2 H3 out. subst out.
  rewrite process_powered_on by exact Hon. cbn [fst snd].
  set (s2 := fst (Pass.updateModeStates f (fst (Pass.updatePowerState f s)))) in *.
  rewrite Pass_andThen_eq. cbn [fst snd].
  rewrite (Pass_when_true _ (Pass.processInputs f) s2) by exact Hmode.
  assert (Hp : Pass.processInputs f s2
               = ({| Pass.num_channels := 2; Pass.voltages := [f32 6];
                     Pass.state_on := Pass.state_on s2;
                     Pass.last_state := Pass.last_state s2;
                     Pass.state_on_avg := Pass.state_on_avg s2;
                     Pass.last_state_avg := Pass.last_state_avg s2;
                     Pass.state_on_sum := Pass.state_on_sum s2;
                     Pass.last_state_sum := Pass.last_state_sum s2 |}, [])).
  { unfold Pass.processInputs, Pass.processInput. rewrite H1, H2, H3.
    reflexivity. }
  rewrite Hp. cbn [fst snd].
  rewrite Pass_when_true by reflexivity.
  rewrite Pass_andThen_eq. unfold Pass.when at 1 2 3. cbn [Pass.state_on_avg].
  destruct (Pass.state_on_avg s2); cbn [fst snd Pass.sendOutput Pass.skip].
  - repeat split; try reflexivity. eexists. rewrite !app_assoc. reflexivity.
  - repeat split; try reflexivity. eexists. rewrite !app_assoc. reflexivity.
Qed.

Lemma two_inputs_average_and_sum_witness :
  let avg := passFrame 1 0 1 (monoInput (f32 4)) (monoInput (f32 2)) noInput in
  let sum := passFrame 1 1 0 (monoInput (f32 4)) (monoInput (f32 2)) noInput in
  Pass.voltages (fst (Pass.process avg Pass.init)) = [f32 3] /\
  Pass.voltages (fst (Pass.process sum Pass.init)) = [f32 6].
Proof.
  intros avg sum. split.
  - apply (two_inputs_average_and_sum avg Pass.init); reflexivity.
  - apply (two_inputs_average_and_sum sum Pass.init); reflexivity.
Defined.

(** ** The coefficient at and above the Nyquist frequency *)

(** C3, as the claim states it, fails: 10000 Hz is below the Nyquist
    frequency 22050 Hz and is not clamped. *)
Lemma alpha_10000_is_not_nyquist_alpha :
  Filter.calculateAlpha (f32 10000) (f32 44100)
  <> Filter.calculateAlpha (f32 22050) (f32 44100).
Proof. vm_compute. discriminate. Qed.

(** C3 (amended): at 44100 Hz every cutoff whose magnitude exceeds the
    Nyquist frequency 22050 Hz yields the coefficient of 22050 Hz; the
    cutoff 10000 Hz does not exceed it and its coefficient is smaller. *)
Theorem alpha_clamps_above_nyquist cutoff :
  gtb (fabs cutoff) (f32 22050) = true ->
  Filter.calculateAlpha cutoff (f32 44100)
    = Filter.calculateAlpha (f32 22050) (f32 44100) /\
  gtb (fabs (f32 10000)) (f32 22050) = false /\
  gtb (Filter.calculateAlpha (f32 22050) (f32 44100))
      (Filter.calculateAlpha (f32 10000) (f32 44100)) = true.
Proof.
  intros H. split; [|split; reflexivity].
  assert (E : div (f32 44100) two = f32 22050) by reflexivity.
  unfold Filter.calculateAlpha at 1. rewrite E, H. reflexivity.
Qed.

Lemma alpha_clamps_above_nyquist_witness :
  Filter.calculateAlpha (f32 30000) (f32 44100)
  = Filter.calculateAlpha (f32 22050) (f32 44100).
Proof. apply (alpha_clamps_above_nyquist (f32 30000)). reflexivity. Defined.

End StateAndControl.
(** * Part II: the coefficient stays in [0, 1]

    [SpecFloat] gives the operations as algorithms on mantissas; the
    lemmas below relate what [binary_round_aux] returns to the real value
    it rounds, far enough to bound the results of the operations
    [calculateAlpha] performs. *)

(** ** Shifts and digit counts *)

(** [iter_pos f p] applies [f] [Pos.to_nat p] times. *)
Lemma iter_pos_nat {A} (f : A -> A) (p : positive) (x : A) :
  iter_pos f p x = Nat.iter (Pos.to_nat p) f x.
Proof.
  revert x; induction p as [p IH|p IH|]; intros x; cbn [iter_pos].
  - rewrite !IH. rewrite Pos2Nat.inj_xI. 
    replace (S (2 * Pos.to_nat p))%nat with (Pos.to_nat p + (Pos.to_nat p + 1))%nat by lia.
    rewrite !Nat.iter_add. reflexivity.
  - rewrite !IH. rewrite Pos2Nat.inj_xO.
    replace (2 * Pos.to_nat p)%nat with (Pos.to_nat p + Pos.to_nat p)%nat by lia.
    rewrite Nat.iter_add. reflexivity.
  - reflexivity.
Qed.


(** One right shift halves the mantissa. *)
Lemma shr_1_m mrs : 0 <= shr_m mrs -> shr_m (shr_1 mrs) = shr_m mrs / 2.
Proof.
  destruct mrs as [m r s]; simpl. intros Hm.
  destruct m as [|p|p]; try lia; [reflexivity|].
  destruct p as [p|p|]; cbn [shr_m].
  - rewrite Pos2Z.inj_xI. apply Z.div_unique with 1; lia.
  - rewrite Pos2Z.inj_xO. apply Z.div_unique with 0; lia.
  - reflexivity.
Qed.

(** One right shift remembers whether a set bit was lost. *)
Lemma shr_1_inexact mrs :
  0 <= shr_m mrs ->
  inexact (shr_1 mrs) = inexact mrs || Z.odd (shr_m mrs).
Proof.
  destruct mrs as [m r s]; unfold inexact; simpl. intros Hm.
  destruct m as [|p|p]; try lia; simpl.
  - now rewrite orb_false_r.
  - destruct p; simpl; destruct r, s; reflexivity.
Qed.

Lemma shr_iter_spec (n : nat) mrs :
  0 <= shr_m mrs ->
  shr_m (Nat.iter n shr_1 mrs) = shr_m mrs / 2 ^ Z.of_nat n /\
  (inexact (Nat.iter n shr_1 mrs) = false <->
   inexact mrs = false /\ shr_m mrs mod 2 ^ Z.of_nat n = 0).
Proof.
  intros Hm. induction n as [|n [IHm IHi]].
  - simpl. rewrite Z.div_1_r, Z.mod_1_r. tauto.
  - rewrite Nat2Z.inj_succ, Z.pow_succ_r by lia.
    rewrite Nat.iter_succ.
    assert (H0 : 0 <= shr_m (Nat.iter n shr_1 mrs)).
    { rewrite IHm. apply Z.div_pos; lia. }
    split.
    + rewrite shr_1_m by assumption. rewrite IHm.
      rewrite Z.div_div by lia. f_equal. lia.
    + rewrite shr_1_inexact by assumption. rewrite orb_false_iff, IHi, IHm.
      assert (Hp : 0 < 2 ^ Z.of_nat n) by lia.
      set (P := 2 ^ Z.of_nat n) in *.
      rewrite <- Z.negb_even, negb_false_iff.
      rewrite Z.even_spec.
      split.
      * intros [[Hi Hmod] [k Hk]]. split; [assumption|].
        rewrite (Z.div_mod (shr_m mrs) P) by lia.
        rewrite Hk, Hmod.
        replace (P * (2 * k) + 0) with (k * (2 * P)) by lia.
        apply Z.mod_mul. lia.
      * intros [Hi Hmod]. 
        apply Z.mod_divide in Hmod; [|lia]. destruct Hmod as [k Hk].
        repeat split; try assumption.
        -- apply Z.mod_divide; [lia|]. exists (2 * k). lia.
        -- exists k. rewrite Hk. replace (k * (2 * P)) with ((2 * k) * P) by lia.
           rewrite Z.div_mul by lia. reflexivity.
Qed.

(** A shift by [n] places divides the mantissa by [2^n]; the record stays
    exact just when it was exact and the [n] low bits were zero. *)
Lemma shr_spec mrs e n :
  0 <= shr_m mrs -> 0 <= n ->
  let '(mrs', e') := shr mrs e n in
  e' = e + n /\ shr_m mrs' = shr_m mrs / 2 ^ n /\
  (inexact mrs' = false <-> inexact mrs = false /\ shr_m mrs mod 2 ^ n = 0).
Proof.
  intros Hm Hn. unfold shr. destruct n as [|p|p]; try lia.
  - rewrite Z.add_0_r, Z.div_1_r, Z.mod_1_r. tauto.
  - rewrite iter_pos_nat. split; [reflexivity|].
    rewrite <- (positive_nat_Z p) at 1 2.
    apply shr_iter_spec. assumption.
Qed.

Lemma loc_of_shr_record_exact mrs :
  loc_of_shr_record mrs = loc_Exact <-> inexact mrs = false.
Proof. destruct mrs as [m [|] [|]]; unfold inexact; simpl; split; congruence. Qed.

Lemma inexact_record_of_loc m l :
  inexact (shr_record_of_loc m l) = false <-> l = loc_Exact.
Proof. destruct l as [|[| |]]; unfold inexact; simpl; split; congruence. Qed.

Lemma shr_m_record_of_loc m l : shr_m (shr_record_of_loc m l) = m.
Proof. destruct l as [|[| |]]; reflexivity. Qed.

Lemma round_nearest_even_spec m l :
  round_nearest_even m l = m \/
  (round_nearest_even m l = m + 1 /\ l <> loc_Exact).
Proof.
  destruct l as [|[| |]]; simpl; auto.
  - destruct (Z.even m); [auto|right; split; congruence].
  - right; split; congruence.
Qed.

(** [Zdigits2 m] is the number of binary digits of [m]. *)
Lemma digits2_pos_size p : digits2_pos p = Pos.size p.
Proof. induction p; simpl; congruence. Qed.

Lemma Zdigits2_log2 m : 0 < m -> Zdigits2 m = Z.log2 m + 1.
Proof.
  destruct m as [|p|p]; try lia. intros _. simpl.
  rewrite digits2_pos_size. destruct p; simpl; lia.
Qed.

Lemma Zdigits2_bounds m :
  0 < m -> 2 ^ (Zdigits2 m - 1) <= m < 2 ^ Zdigits2 m.
Proof.
  intros Hm. rewrite Zdigits2_log2 by assumption.
  replace (Z.log2 m + 1 - 1) with (Z.log2 m) by lia.
  replace (Z.log2 m + 1) with (Z.succ (Z.log2 m)) by lia.
  apply Z.log2_spec. assumption.
Qed.

Lemma Zdigits2_unique m d :
  0 < m -> 2 ^ (d - 1) <= m < 2 ^ d -> Zdigits2 m = d.
Proof.
  intros Hm H. rewrite Zdigits2_log2 by assumption.
  assert (0 < d).
  { destruct (Z.lt_ge_cases 0 d); [assumption|].
    assert (2 ^ d <= 2 ^ 0) by (destruct (Z.eq_dec d 0); [subst; lia|rewrite Z.pow_neg_r; lia]).
    simpl in *. lia. }
  assert (Z.log2 m = d - 1); [|lia].
  apply Z.log2_unique; [lia|]. replace (Z.succ (d - 1)) with d by lia. assumption.
Qed.

Lemma Zdigits2_nonneg m : 0 <= Zdigits2 m.
Proof. destruct m; simpl; lia. Qed.

Lemma Zdigits2_pos m : 0 < m -> 0 < Zdigits2 m.
Proof. destruct m; simpl; lia. Qed.

Lemma Zdigits2_le a b : 0 <= a <= b -> Zdigits2 a <= Zdigits2 b.
Proof.
  intros [Ha Hab]. destruct (Z.eq_dec a 0) as [->|Hne].
  - apply Zdigits2_nonneg.
  - rewrite !Zdigits2_log2 by lia. apply Z.add_le_mono_r, Z.log2_le_mono. lia.
Qed.

Lemma Zdigits2_lt_pow m d : 0 <= m -> 0 <= d -> m < 2 ^ d -> Zdigits2 m <= d.
Proof.
  intros Hm Hd H. destruct (Z.eq_dec m 0) as [->|Hne]; [simpl; lia|].
  destruct (Z.le_gt_cases (Zdigits2 m) d) as [|Hgt]; [assumption|exfalso].
  pose proof (Zdigits2_bounds m ltac:(lia)) as [Hlo _].
  assert (2 ^ d <= 2 ^ (Zdigits2 m - 1)) by (apply Z.pow_le_mono_r; lia). lia.
Qed.

Lemma Zdigits2_ge_pow m d : 0 <= d -> 2 ^ d <= m -> d + 1 <= Zdigits2 m.
Proof.
  intros Hd H. assert (0 < m) by lia.
  destruct (Z.le_gt_cases (d + 1) (Zdigits2 m)) as [|Hgt]; [assumption|exfalso].
  pose proof (Zdigits2_bounds m ltac:(lia)) as [_ Hhi].
  assert (2 ^ Zdigits2 m <= 2 ^ d) by (apply Z.pow_le_mono_r; lia). lia.
Qed.

Lemma Zdigits2_div_pow m n :
  0 < m -> 0 <= n -> n < Zdigits2 m -> Zdigits2 (m / 2 ^ n) = Zdigits2 m - n.
Proof.
  intros Hm Hn Hlt.
  pose proof (Zdigits2_bounds m Hm) as [Hlo Hhi].
  assert (Hp : 0 < 2 ^ n) by lia.
  assert (Hq : 2 ^ (Zdigits2 m - n - 1) <= m / 2 ^ n < 2 ^ (Zdigits2 m - n)).
  { split.
    - apply Z.div_le_lower_bound; [lia|]. rewrite <- Z.pow_add_r by lia.
      replace (n + (Zdigits2 m - n - 1)) with (Zdigits2 m - 1) by lia. assumption.
    - apply Z.div_lt_upper_bound; [lia|]. rewrite <- Z.pow_add_r by lia.
      replace (n + (Zdigits2 m - n)) with (Zdigits2 m) by lia. assumption. }
  apply Zdigits2_unique; [|assumption].
  assert (0 < 2 ^ (Zdigits2 m - n - 1)) by (apply Z.pow_pos_nonneg; lia). lia.
Qed.

Lemma bpow_gt_0 e : (0 < bpow e)%R.
Proof. apply powerRZ_lt. lra. Qed.

Lemma bpow_plus a b : bpow (a + b) = (bpow a * bpow b)%R.
Proof. apply powerRZ_add. lra. Qed.

Lemma bpow_IZR e : 0 <= e -> bpow e = IZR (2 ^ e).
Proof.
  destruct e as [|p|p]; try lia; intros _.
  - reflexivity.
  - symmetry. apply (Zpower_pos_powerRZ 2 p).
Qed.

Lemma bpow_le a b : a <= b -> (bpow a <= bpow b)%R.
Proof.
  intros H. replace b with (a + (b - a)) by lia. rewrite bpow_plus.
  rewrite (bpow_IZR (b - a)) by lia.
  assert (1 <= 2 ^ (b - a)) by (pose proof (Z.pow_pos_nonneg 2 (b - a)); lia).
  apply IZR_le in H0. pose proof (bpow_gt_0 a). nra.
Qed.

Lemma bpow_lt a b : a < b -> (bpow a < bpow b)%R.
Proof.
  intros H. replace b with (a + (b - a)) by lia. rewrite bpow_plus.
  rewrite (bpow_IZR (b - a)) by lia.
  assert (2 <= 2 ^ (b - a)).
  { replace (b - a) with (1 + (b - a - 1)) by lia. rewrite Z.pow_add_r by lia.
    pose proof (Z.pow_pos_nonneg 2 (b - a - 1)). lia. }
  apply IZR_le in H0. pose proof (bpow_gt_0 a). nra.
Qed.

Lemma bpow_lt_inv a b : (bpow a < bpow b)%R -> a < b.
Proof.
  intros H. destruct (Z.lt_ge_cases a b) as [|Hge]; [assumption|].
  apply bpow_le in Hge. lra.
Qed.

Lemma bpow_le_inv a b : (bpow a <= bpow b)%R -> a <= b.
Proof.
  intros H. destruct (Z.le_gt_cases a b) as [|Hgt]; [assumption|].
  apply bpow_lt in Hgt. lra.
Qed.

Lemma IZR_bpow_le m e k :
  e <= k -> ((IZR m * bpow e <= bpow k)%R <-> m <= 2 ^ (k - e)).
Proof.
  intros H. replace k with ((k - e) + e) at 1 by lia. rewrite bpow_plus.
  rewrite (bpow_IZR (k - e)) by lia. pose proof (bpow_gt_0 e). split.
  - intros Hle. apply le_IZR. nra.
  - intros Hle. apply IZR_le in Hle. nra.
Qed.

Lemma IZR_bpow_lt m e k :
  e <= k -> ((IZR m * bpow e < bpow k)%R <-> m < 2 ^ (k - e)).
Proof.
  intros H. replace k with ((k - e) + e) at 1 by lia. rewrite bpow_plus.
  rewrite (bpow_IZR (k - e)) by lia. pose proof (bpow_gt_0 e). split.
  - intros Hle. apply lt_IZR. nra.
  - intros Hle. apply IZR_lt in Hle. nra.
Qed.

Lemma IZR_digits m :
  0 < m -> (bpow (Zdigits2 m - 1) <= IZR m < bpow (Zdigits2 m))%R.
Proof.
  intros Hm. pose proof (Zdigits2_bounds m Hm) as [Hlo Hhi].
  pose proof (Zdigits2_pos m Hm).
  rewrite !bpow_IZR by lia. split; [apply IZR_le|apply IZR_lt]; assumption.
Qed.

(** The value [IZR m * bpow e] lies in the binade given by its magnitude. *)
Lemma value_digits m e :
  0 < m ->
  (bpow (Zdigits2 m + e - 1) <= IZR m * bpow e < bpow (Zdigits2 m + e))%R.
Proof.
  intros Hm. pose proof (IZR_digits m Hm) as [Hlo Hhi]. pose proof (bpow_gt_0 e).
  replace (Zdigits2 m + e - 1) with ((Zdigits2 m - 1) + e) by lia.
  rewrite !bpow_plus. split; nra.
Qed.

Lemma pos_iter_xO m d : Zpos (Pos.iter xO m d) = Zpos m * 2 ^ Zpos d.
Proof.
  induction d as [|d IH] using Pos.peano_ind.
  - simpl. lia.
  - rewrite Pos.iter_succ, Pos2Z.inj_succ, Z.pow_succ_r by lia.
    rewrite Pos2Z.inj_xO, IH. lia.
Qed.

Lemma shl_align_spec mx ex ex' :
  snd (shl_align mx ex ex') = Z.min ex ex' /\
  Zpos (fst (shl_align mx ex ex')) = Zpos mx * 2 ^ (ex - Z.min ex ex').
Proof.
  unfold shl_align. destruct (ex' - ex) as [|d|d] eqn:E; cbn [fst snd].
  - replace (Z.min ex ex') with ex by lia. rewrite Z.sub_diag. lia.
  - replace (Z.min ex ex') with ex by lia. rewrite Z.sub_diag. lia.
  - replace (Z.min ex ex') with ex' by lia. rewrite pos_iter_xO.
    replace (ex - ex') with (Z.pos d) by lia. split; reflexivity.
Qed.

Lemma Zdigits2_mul_pow m j :
  0 < m -> 0 <= j -> Zdigits2 (m * 2 ^ j) = Zdigits2 m + j.
Proof.
  intros Hm Hj. pose proof (Zdigits2_bounds m Hm) as [Hlo Hhi].
  pose proof (Zdigits2_pos m Hm).
  assert (0 < 2 ^ j) by (apply Z.pow_pos_nonneg; lia).
  apply Zdigits2_unique; [nia|].
  replace (Zdigits2 m + j - 1) with (Zdigits2 m - 1 + j) by lia.
  rewrite !Z.pow_add_r by lia. nia.
Qed.

Lemma Zdigits2_mul a b :
  0 < a -> 0 < b -> Zdigits2 a + Zdigits2 b - 1 <= Zdigits2 (a * b).
Proof.
  intros Ha Hb.
  pose proof (Zdigits2_bounds a Ha) as [Hla _].
  pose proof (Zdigits2_bounds b Hb) as [Hlb _].
  pose proof (Zdigits2_pos a Ha). pose proof (Zdigits2_pos b Hb).
  assert (H1 : 2 ^ (Zdigits2 a - 1 + (Zdigits2 b - 1)) <= a * b).
  { rewrite Z.pow_add_r by lia.
    assert (0 < 2 ^ (Zdigits2 a - 1)) by (apply Z.pow_pos_nonneg; lia).
    assert (0 < 2 ^ (Zdigits2 b - 1)) by (apply Z.pow_pos_nonneg; lia). nia. }
  apply Zdigits2_ge_pow in H1; lia.
Qed.

Lemma div_eucl_div_mod a b : Z.div_eucl a b = (a / b, a mod b).
Proof. unfold Z.div, Z.modulo. destruct (Z.div_eucl a b); reflexivity. Qed.

Lemma new_location_exact nb k : new_location nb k = loc_Exact <-> k = 0.
Proof.
  unfold new_location, new_location_even, new_location_odd.
  destruct (Z.even nb), (Z.eqb_spec k 0); split; congruence.
Qed.

Lemma bounded_canonical prec emax m e :
  bounded prec emax m e = true ->
  fexp prec emax (Zdigits2 (Zpos m) + e) = e /\ e <= emax - prec.
Proof.
  unfold bounded, canonical_mantissa. intros H.
  apply andb_prop in H. destruct H as [H1 H2].
  apply Z.eqb_eq in H1. apply Z.leb_le in H2. split; assumption.
Qed.

(** ** Rounding in a format of precision [prec] and exponent bound [emax] *)

Section Rounding.
Variables prec emax : Z.
Hypothesis Hprec : 0 < prec.
Hypothesis Hemax : prec < emax.

Abbreviation emin := (emin prec emax).
Abbreviation fexp := (fexp prec emax).

Lemma fexp_mono a b : a <= b -> fexp a <= fexp b.
Proof. unfold SpecFloat.fexp. lia. Qed.

Lemma fexp_ge_emin a : emin <= fexp a.
Proof. unfold SpecFloat.fexp. lia. Qed.

Lemma fexp_fix_emin e : fexp e = e -> e = emin.
Proof. unfold SpecFloat.fexp. lia. Qed.

(** After the rounding increment the mantissa needs at most one more shift,
    and only when it became a power of two. *)
Lemma second_shift m' e1 m1 :
  0 <= m' -> fexp (Zdigits2 m' + e1) = e1 -> m1 = m' \/ m1 = m' + 1 ->
  let n2 := fexp (Zdigits2 m1 + e1) - e1 in
  n2 = 0 \/ (n2 = 1 /\ 2 <= Zdigits2 m1 /\ m1 = 2 ^ (Zdigits2 m1 - 1)).
Proof.
  intros Hm' Hfix [->| ->] n2; subst n2; [left; lia|].
  destruct (Z.eq_dec m' 0) as [->|Hne].
  - left. change (Zdigits2 (0 + 1)) with 1. change (Zdigits2 0) with 0 in Hfix.
    unfold SpecFloat.fexp in *. lia.
  - assert (H0 : 0 < m') by lia.
    pose proof (Zdigits2_bounds m' H0) as [Hlo Hhi].
    pose proof (Zdigits2_pos m' H0) as Hd.
    pose proof (Zdigits2_le m' (m' + 1) ltac:(lia)) as Hle.
    assert (Hub : Zdigits2 (m' + 1) <= Zdigits2 m' + 1).
    { apply Zdigits2_lt_pow; try lia.
      rewrite Z.pow_add_r by lia. lia. }
    destruct (Z.eq_dec (Zdigits2 (m' + 1)) (Zdigits2 m')) as [E|E].
    + left. rewrite E. lia.
    + assert (E' : Zdigits2 (m' + 1) = Zdigits2 m' + 1) by lia.
      pose proof (Zdigits2_bounds (m' + 1) ltac:(lia)) as [Hlo' _].
      rewrite E' in *. replace (Zdigits2 m' + 1 - 1) with (Zdigits2 m') in * by lia.
      unfold SpecFloat.fexp in *. 
      destruct (Z.eq_dec (Z.max (Zdigits2 m' + 1 + e1 - prec) emin - e1) 0); [left; assumption|].
      right. repeat split; lia.
Qed.

(** What [binary_round_aux] returns.  The mantissa is truncated at the
    exponent [fexp (digits + ex)] and incremented only if something was
    lost; the result is a zero, an infinity on overflow, or a canonical
    float whose value is exactly that mantissa at that exponent. *)
Lemma binary_round_aux_spec sx mx ex lx :
  0 <= mx -> ex <= fexp (Zdigits2 mx + ex) ->
  exists m1,
    (m1 = mx / 2 ^ (fexp (Zdigits2 mx + ex) - ex) \/
     (m1 = mx / 2 ^ (fexp (Zdigits2 mx + ex) - ex) + 1 /\
      (lx <> loc_Exact \/ mx mod 2 ^ (fexp (Zdigits2 mx + ex) - ex) <> 0))) /\
    match binary_round_aux prec emax sx mx ex lx with
    | S754_zero s => s = sx /\ m1 = 0
    | S754_infinity s =>
        s = sx /\ 0 < m1 /\
        emax - prec < fexp (Zdigits2 m1 + fexp (Zdigits2 mx + ex))
    | S754_finite s m e =>
        s = sx /\ bounded prec emax m e = true /\
        fexp (Zdigits2 mx + ex) <= e /\
        m1 = Zpos m * 2 ^ (e - fexp (Zdigits2 mx + ex))
    | S754_nan => False
    end.
Proof.
  intros Hmx Hex.
  unfold binary_round_aux, shr_fexp.
  set (e1 := fexp (Zdigits2 mx + ex)) in *.
  set (n := e1 - ex).
  assert (Hn : 0 <= n) by (unfold n; lia).
  pose proof (shr_spec (shr_record_of_loc mx lx) ex n) as Hs1.
  rewrite shr_m_record_of_loc in Hs1. specialize (Hs1 Hmx Hn).
  destruct (shr (shr_record_of_loc mx lx) ex n) as [mrs' e'].
  destruct Hs1 as (He' & Hm' & Hi').
  rewrite inexact_record_of_loc in Hi'.
  replace e' with e1 by (unfold n in He'; lia). clear He' e'.
  set (m' := mx / 2 ^ n) in *.
  assert (Hm'0 : 0 <= m') by (apply Z.div_pos; lia).
  set (m1 := round_nearest_even (shr_m mrs') (loc_of_shr_record mrs')).
  assert (Hm1 : m1 = m' \/ (m1 = m' + 1 /\ (lx <> loc_Exact \/ mx mod 2 ^ n <> 0))).
  { destruct (round_nearest_even_spec (shr_m mrs') (loc_of_shr_record mrs'))
      as [H|[H Hl]]; fold m1 in H; rewrite Hm' in H; [left; assumption|].
    right. split; [assumption|].
    rewrite loc_of_shr_record_exact, Hi' in Hl.
    destruct lx as [|c]; [|left; congruence].
    destruct (Z.eq_dec (mx mod 2 ^ n) 0); [|right; assumption].
    exfalso; apply Hl; split; [reflexivity|assumption]. }
  exists m1. split; [assumption|].
  assert (Hm10 : 0 <= m1) by (destruct Hm1 as [->|[-> _]]; lia).
  (* the exponent is a fixed point of fexp at the truncated mantissa *)
  assert (Hfix : fexp (Zdigits2 m' + e1) = e1).
  { destruct (Z.eq_dec m' 0) as [E|E].
    - rewrite E. change (Zdigits2 0) with 0. rewrite Z.add_0_l.
      assert (Hd : Zdigits2 mx <= n).
      { apply Zdigits2_lt_pow; try assumption.
        destruct (Z.lt_ge_cases mx (2 ^ n)) as [|Hge]; [assumption|exfalso].
        assert (1 <= m'); [|lia].
        unfold m'. apply Z.div_le_lower_bound; lia. }
      unfold e1, n, SpecFloat.fexp in *. lia.
    - assert (Hmx0 : 0 < mx).
      { destruct (Z.eq_dec mx 0) as [E0|]; [|lia].
        exfalso; apply E. unfold m'. rewrite E0. apply Z.div_0_l. lia. }
      assert (Hlt : n < Zdigits2 mx).
      { destruct (Z.lt_ge_cases n (Zdigits2 mx)) as [|Hge]; [assumption|exfalso].
        apply E. unfold m'. apply Z.div_small. split; [lia|].
        pose proof (Zdigits2_bounds mx Hmx0) as [_ Hhi].
        assert (2 ^ Zdigits2 mx <= 2 ^ n) by (apply Z.pow_le_mono_r; lia). lia. }
      unfold m'. rewrite Zdigits2_div_pow by assumption.
      replace (Zdigits2 mx - n + e1) with (Zdigits2 mx + ex) by (unfold n; lia).
      reflexivity. }
  pose proof (second_shift m' e1 m1 Hm'0 Hfix
                ltac:(destruct Hm1 as [->|[-> _]]; auto)) as Hn2.
  cbv zeta in Hn2.
  set (n2 := fexp (Zdigits2 m1 + e1) - e1) in *.
  pose proof (shr_spec (shr_record_of_loc m1 loc_Exact) e1 n2) as Hs2.
  rewrite shr_m_record_of_loc in Hs2.
  specialize (Hs2 Hm10 ltac:(destruct Hn2 as [->|[-> _]]; lia)).
  destruct (shr (shr_record_of_loc m1 loc_Exact) e1 n2) as [mrs'' e''].
  destruct Hs2 as (He'' & Hm'' & _).
  destruct Hn2 as [Hn2|(Hn2 & Hd1 & Hpow)].
  - (* no second shift *)
    rewrite Hn2, Z.div_1_r in Hm''. rewrite Hn2, Z.add_0_r in He''. subst e''.
    rewrite Hm''. destruct m1 as [|p|p]; try lia.
    + split; reflexivity.
    + destruct (Z.leb_spec e1 (emax - prec)) as [Hle|Hgt].
      * repeat split; try lia.
        -- unfold bounded, canonical_mantissa. apply andb_true_intro; split.
           ++ apply Z.eqb_eq. change (Z.pos (digits2_pos p)) with (Zdigits2 (Z.pos p)).
              unfold n2 in Hn2. lia.
           ++ apply Z.leb_le. assumption.
        -- rewrite Z.sub_diag. lia.
      * repeat split; lia.
  - (* the rounded mantissa overflowed to a power of two: one more shift *)
    rewrite Hn2 in Hm'', He''. subst e''.
    assert (Hhalf : m1 / 2 ^ 1 = 2 ^ (Zdigits2 m1 - 2)).
    { rewrite Hpow at 1. replace (Zdigits2 m1 - 1) with (Zdigits2 m1 - 2 + 1) by lia.
      rewrite Z.pow_add_r by lia. apply Z.div_mul. lia. }
    rewrite Hhalf in Hm''.
    assert (Hpos : 0 < 2 ^ (Zdigits2 m1 - 2)) by (apply Z.pow_pos_nonneg; lia).
    rewrite Hm''. destruct (2 ^ (Zdigits2 m1 - 2)) as [|p|p] eqn:Ep; try lia.
    assert (Hdp : Zdigits2 (Z.pos p) = Zdigits2 m1 - 1).
    { rewrite <- Ep. apply Zdigits2_unique; [lia|].
      replace (Zdigits2 m1 - 1 - 1) with (Zdigits2 m1 - 2) by lia.
      split; [lia|]. apply Z.pow_lt_mono_r; lia. }
    destruct (Z.leb_spec (e1 + 1) (emax - prec)) as [Hle|Hgt].
    + repeat split; try lia.
      * unfold bounded, canonical_mantissa. apply andb_true_intro; split.
        -- apply Z.eqb_eq. change (Z.pos (digits2_pos p)) with (Zdigits2 (Z.pos p)).
           rewrite Hdp. replace (Zdigits2 m1 - 1 + (e1 + 1)) with (Zdigits2 m1 + e1) by lia.
           unfold n2 in Hn2. lia.
        -- apply Z.leb_le. assumption.
      * replace (e1 + 1 - e1) with 1 by lia. 
        rewrite <- Ep. rewrite Hpow at 1.
        replace (Zdigits2 m1 - 1) with (Zdigits2 m1 - 2 + 1) by lia.
        rewrite Z.pow_add_r by lia. reflexivity.
    + repeat split; lia.
Qed.

(** Rounding does not cross a power of two [2^k] of the format, and stays
    within one unit of the target exponent below the value it rounds. *)
Lemma round_aux_bounds sx mx ex lx k :
  0 <= mx -> ex <= fexp (Zdigits2 mx + ex) ->
  emin <= k -> k < emax ->
  (IZR mx * bpow ex <= bpow k)%R ->
  (lx <> loc_Exact -> (IZR mx * bpow ex < bpow k)%R) ->
  (binary_round_aux prec emax sx mx ex lx = S754_zero sx /\
   (IZR mx * bpow ex < bpow (fexp (Zdigits2 mx + ex)))%R) \/
  exists m e,
    binary_round_aux prec emax sx mx ex lx = S754_finite sx m e /\
    bounded prec emax m e = true /\
    (IZR (Zpos m) * bpow e <= bpow k)%R /\
    (IZR mx * bpow ex - bpow (fexp (Zdigits2 mx + ex)) < IZR (Zpos m) * bpow e)%R.
Proof.
  intros Hmx Hex Hk1 Hk2 Hle Hlt.
  destruct (binary_round_aux_spec sx mx ex lx Hmx Hex)
    as (m1 & Hm1 & Hres).
  set (e1 := fexp (Zdigits2 mx + ex)) in *.
  set (n := e1 - ex) in *.
  assert (Hn : 0 <= n) by (unfold n; lia).
  assert (Hpn : 0 < 2 ^ n) by (apply Z.pow_pos_nonneg; lia).
  assert (He1k : e1 <= k).
  { destruct (Z.eq_dec mx 0) as [E|E].
    - unfold e1 in *. rewrite E in *. change (Zdigits2 0) with 0 in *.
      unfold SpecFloat.fexp in *. lia.
    - pose proof (value_digits mx ex ltac:(lia)) as [Hlo _].
      assert (Hb : (bpow (Zdigits2 mx + ex - 1) <= bpow k)%R) by lra.
      apply bpow_le_inv in Hb. unfold e1, SpecFloat.fexp. lia. }
  set (m' := mx / 2 ^ n) in *.
  assert (Hdm : mx = 2 ^ n * m' + mx mod 2 ^ n) by (apply Z.div_mod; lia).
  pose proof (Z.mod_pos_bound mx (2 ^ n) Hpn) as Hmod.
  assert (Hpk : 2 ^ (k - ex) = 2 ^ (k - e1) * 2 ^ n).
  { rewrite <- Z.pow_add_r by lia. f_equal. unfold n. lia. }
  assert (Hpk1 : 0 < 2 ^ (k - e1)) by (apply Z.pow_pos_nonneg; lia).
  (* the rounded mantissa stays below the bound *)
  assert (Hm1k : m1 <= 2 ^ (k - e1)).
  { apply IZR_bpow_le in Hle; [|lia].
    assert (Hm'k : m' <= 2 ^ (k - e1)) by nia.
    destruct Hm1 as [->|[-> Hin]]; [assumption|].
    destruct (Z.eq_dec m' (2 ^ (k - e1))) as [E|E]; [exfalso|lia].
    destruct Hin as [Hin|Hin].
    - apply Hlt in Hin. apply IZR_bpow_lt in Hin; [|lia]. nia.
    - apply Hin. nia. }
  assert (Hm'1 : m' <= m1) by (destruct Hm1 as [->|[-> _]]; lia).
  (* the value before rounding is below the next grid point *)
  assert (Hlow : (IZR mx * bpow ex < (IZR m1 + 1) * bpow e1)%R).
  { replace e1 with (n + ex) by (unfold n; lia). rewrite bpow_plus.
    rewrite (bpow_IZR n) by lia. rewrite <- plus_IZR, <- Rmult_assoc, <- mult_IZR.
    apply Rmult_lt_compat_r; [apply bpow_gt_0|]. apply IZR_lt. nia. }
  destruct (binary_round_aux prec emax sx mx ex lx) as [s|s| |s m e].
  - destruct Hres as [-> ->]. left. split; [reflexivity|]. simpl in Hlow. lra.
  - exfalso. destruct Hres as (_ & Hpos & Hov).
    assert (Hd : Zdigits2 m1 <= k - e1 + 1).
    { apply Zdigits2_lt_pow; try lia. rewrite Z.pow_add_r by lia. lia. }
    unfold SpecFloat.fexp, SpecFloat.emin in *. lia.
  - contradiction.
  - destruct Hres as (-> & Hb & Hee & Hval). right. exists m, e.
    repeat split; try assumption.
    + assert (Hpe : 0 < 2 ^ (e - e1)) by (apply Z.pow_pos_nonneg; lia).
      assert (Hek : e <= k).
      { destruct (Z.le_gt_cases e k) as [|Hgt]; [assumption|exfalso].
        assert (2 ^ (k - e1) < 2 ^ (e - e1)) by (apply Z.pow_lt_mono_r; lia).
        nia. }
      apply IZR_bpow_le; [assumption|].
      assert (E : 2 ^ (k - e1) = 2 ^ (k - e) * 2 ^ (e - e1)).
      { rewrite <- Z.pow_add_r by lia. f_equal; lia. }
      assert (0 < 2 ^ (k - e)) by (apply Z.pow_pos_nonneg; lia).
      nia.
    + assert (Ev : (IZR (Z.pos m) * bpow e = IZR m1 * bpow e1)%R).
      { rewrite Hval. replace e with ((e - e1) + e1) at 1 by lia.
        rewrite bpow_plus, (bpow_IZR (e - e1)) by lia. rewrite mult_IZR. ring. }
      rewrite Ev. pose proof (bpow_gt_0 e1). lra.
Qed.

(** The same for [binary_round], which first aligns the mantissa. *)
Lemma binary_round_bounds sx mx ex k :
  emin <= k -> k < emax ->
  (IZR (Zpos mx) * bpow ex <= bpow k)%R ->
  (binary_round prec emax sx mx ex = S754_zero sx /\
   (IZR (Zpos mx) * bpow ex < bpow (fexp (Zdigits2 (Zpos mx) + ex)))%R) \/
  exists m e,
    binary_round prec emax sx mx ex = S754_finite sx m e /\
    bounded prec emax m e = true /\
    (IZR (Zpos m) * bpow e <= bpow k)%R /\
    (IZR (Zpos mx) * bpow ex - bpow (fexp (Zdigits2 (Zpos mx) + ex))
     < IZR (Zpos m) * bpow e)%R.
Proof.
  intros Hk1 Hk2 Hle. unfold binary_round.
  pose proof (shl_align_spec mx ex (fexp (Zdigits2 (Zpos mx) + ex))) as [Hez Hmz].
  change (Z.pos (digits2_pos mx)) with (Zdigits2 (Z.pos mx)).
  destruct (shl_align mx ex (fexp (Zdigits2 (Z.pos mx) + ex))) as [mz ez].
  cbn [fst snd] in Hez, Hmz.
  assert (Hd : Zdigits2 (Zpos mz) + ez = Zdigits2 (Zpos mx) + ex).
  { rewrite Hmz, Zdigits2_mul_pow by lia. lia. }
  assert (Hv : (IZR (Zpos mz) * bpow ez = IZR (Zpos mx) * bpow ex)%R).
  { rewrite Hmz, mult_IZR, <- bpow_IZR by lia.
    rewrite Rmult_assoc, <- bpow_plus. do 2 f_equal. lia. }
  rewrite <- Hd, <- Hv in *.
  apply round_aux_bounds; try assumption; try lia.
  congruence.
Qed.

(** A value that fits the format is returned unchanged. *)
Lemma binary_round_exact sx mx ex :
  fexp (Zdigits2 (Zpos mx) + ex) <= ex ->
  Zdigits2 (Zpos mx) + ex <= emax ->
  exists m e,
    binary_round prec emax sx mx ex = S754_finite sx m e /\
    bounded prec emax m e = true /\
    (IZR (Zpos m) * bpow e = IZR (Zpos mx) * bpow ex)%R.
Proof.
  intros Hfe Hov. unfold binary_round.
  pose proof (shl_align_spec mx ex (fexp (Zdigits2 (Zpos mx) + ex))) as [Hez Hmz].
  change (Z.pos (digits2_pos mx)) with (Zdigits2 (Z.pos mx)).
  destruct (shl_align mx ex (fexp (Zdigits2 (Z.pos mx) + ex))) as [mz ez].
  cbn [fst snd] in Hez, Hmz.
  assert (Hd : Zdigits2 (Zpos mz) + ez = Zdigits2 (Zpos mx) + ex).
  { rewrite Hmz, Zdigits2_mul_pow by lia. lia. }
  assert (Hv : (IZR (Zpos mz) * bpow ez = IZR (Zpos mx) * bpow ex)%R).
  { rewrite Hmz, mult_IZR, <- bpow_IZR by lia.
    rewrite Rmult_assoc, <- bpow_plus. do 2 f_equal. lia. }
  assert (Hez' : ez = fexp (Zdigits2 (Zpos mz) + ez)) by (rewrite Hd; lia).
  destruct (binary_round_aux_spec sx (Zpos mz) ez loc_Exact
              ltac:(lia) ltac:(lia)) as (m1 & Hm1 & Hres).
  rewrite <- Hez', Z.sub_diag, Z.div_1_r, Z.mod_1_r in Hm1.
  assert (Hm1' : m1 = Zpos mz).
  { destruct Hm1 as [H|[_ [H|H]]]; [assumption|congruence|congruence]. }
  rewrite <- Hez' in Hres. clear Hm1. subst m1.
  destruct (binary_round_aux prec emax sx (Z.pos mz) ez loc_Exact) as [s|s| |s m e].
  - destruct Hres; lia.
  - exfalso. destruct Hres as (_ & _ & H). rewrite Hd in H.
    unfold SpecFloat.fexp, SpecFloat.emin in *. lia.
  - contradiction.
  - destruct Hres as (-> & Hb & Hee & Hval). exists m, e.
    repeat split; try assumption. rewrite <- Hv, Hval, mult_IZR.
    replace e with ((e - ez) + ez) at 1 by lia.
    rewrite bpow_plus, (bpow_IZR (e - ez)) by lia. ring.
Qed.

(** A product of canonical floats below [2^k] rounds to at most [2^k]. *)
Lemma SFmul_bounds sx mx ex sy my ey k :
  bounded prec emax mx ex = true -> bounded prec emax my ey = true ->
  emin <= k -> k < emax ->
  (IZR (Zpos mx) * bpow ex * (IZR (Zpos my) * bpow ey) <= bpow k)%R ->
  SFmul prec emax (S754_finite sx mx ex) (S754_finite sy my ey)
    = S754_zero (xorb sx sy) \/
  exists m e,
    SFmul prec emax (S754_finite sx mx ex) (S754_finite sy my ey)
      = S754_finite (xorb sx sy) m e /\
    bounded prec emax m e = true /\
    (IZR (Zpos m) * bpow e <= bpow k)%R.
Proof.
  intros Hbx Hby Hk1 Hk2 Hle. cbn [SFmul].
  apply bounded_canonical in Hbx, Hby. destruct Hbx as [Hcx _], Hby as [Hcy _].
  pose proof (Zdigits2_mul (Zpos mx) (Zpos my) ltac:(lia) ltac:(lia)) as Hd.
  pose proof (Zdigits2_pos (Zpos mx) ltac:(lia)).
  pose proof (Zdigits2_pos (Zpos my) ltac:(lia)).
  destruct (round_aux_bounds (xorb sx sy)
              (Zpos (mx * my)) (ex + ey) loc_Exact k) as [[Hr _]|(m & e & Hr & Hb & Hv & _)];
    try assumption; try lia.
  - rewrite Pos2Z.inj_mul. unfold SpecFloat.fexp, SpecFloat.emin in *. lia.
  - rewrite Pos2Z.inj_mul, mult_IZR, bpow_plus. lra.
  - congruence.
  - left; assumption.
  - right. exists m, e. auto.
Qed.

(** A quotient below [2^k] rounds to at most [2^k]. *)
Lemma SFdiv_bounds sx mx ex sy my ey k :
  emin <= k -> k < emax ->
  (IZR (Zpos mx) * bpow ex <= bpow k * (IZR (Zpos my) * bpow ey))%R ->
  SFdiv prec emax (S754_finite sx mx ex) (S754_finite sy my ey)
    = S754_zero (xorb sx sy) \/
  exists m e,
    SFdiv prec emax (S754_finite sx mx ex) (S754_finite sy my ey)
      = S754_finite (xorb sx sy) m e /\
    bounded prec emax m e = true /\
    (IZR (Zpos m) * bpow e <= bpow k)%R.
Proof.
  intros Hk1 Hk2 Hle. cbn [SFdiv]. unfold SFdiv_core_binary.
  set (d1 := Zdigits2 (Zpos mx)). set (d2 := Zdigits2 (Zpos my)).
  set (e' := Z.min (fexp (d1 + ex - (d2 + ey))) (ex - ey)).
  set (s := ex - ey - e').
  assert (Hs : 0 <= s) by (unfold s, e'; lia).
  assert (Hm' : match s with
                | Z.pos _ => Z.shiftl (Z.pos mx) s
                | 0 => Z.pos mx
                | Z.neg _ => 0
                end = Zpos mx * 2 ^ s).
  { destruct s as [|p|p]; try lia. apply Z.shiftl_mul_pow2. lia. }
  rewrite Hm', div_eucl_div_mod.
  set (M := Zpos mx * 2 ^ s).
  assert (Hps : 0 < 2 ^ s) by (apply Z.pow_pos_nonneg; lia).
  assert (HM : 0 < M) by (unfold M; nia).
  pose proof (Z.div_mod M (Zpos my) ltac:(lia)) as Hdm.
  pose proof (Z.mod_pos_bound M (Zpos my) ltac:(lia)) as Hmod.
  set (q := M / Zpos my) in *. set (r := M mod Zpos my) in *.
  assert (Hq : 0 <= q) by (apply Z.div_pos; lia).
  (* the quotient carries enough digits for the target exponent *)
  assert (Hpre : e' <= fexp (Zdigits2 q + e')).
  { destruct (Z.le_gt_cases e' emin) as [Hle'|Hgt].
    - pose proof (fexp_ge_emin (Zdigits2 q + e')). lia.
    - pose proof (Zdigits2_bounds (Zpos mx) ltac:(lia)) as [Hlx _].
      pose proof (Zdigits2_bounds (Zpos my) ltac:(lia)) as [_ Hhy].
      pose proof (Zdigits2_pos (Zpos mx) ltac:(lia)).
      pose proof (Zdigits2_pos (Zpos my) ltac:(lia)).
      fold d1 in Hlx, H. fold d2 in Hhy, H0.
      assert (He' : e' <= d1 + ex - (d2 + ey) - prec)
        by (unfold e', SpecFloat.fexp in *; lia).
      assert (Hexp : 0 <= d1 - 1 + s - d2) by (unfold s; lia).
      assert (Hq2 : 2 ^ (d1 - 1 + s - d2) <= q).
      { unfold q. apply Z.div_le_lower_bound; [lia|].
        assert (HM2 : 2 ^ (d1 - 1 + s) <= M).
        { unfold M. rewrite Z.pow_add_r by lia. nia. }
        replace (d1 - 1 + s) with (d2 + (d1 - 1 + s - d2)) in HM2 by lia.
        rewrite Z.pow_add_r in HM2 by lia.
        assert (0 < 2 ^ (d1 - 1 + s - d2)) by (apply Z.pow_pos_nonneg; lia).
        nia. }
      apply Zdigits2_ge_pow in Hq2; [|assumption].
      assert (Hf := fexp_mono (d1 + ex - (d2 + ey)) (Zdigits2 q + e')
                      ltac:(unfold s in *; lia)).
      unfold e' at 1. lia. }
  (* the quotient is below the bound, strictly when the division is inexact *)
  assert (Hval : (IZR M * bpow e' = IZR (Zpos mx) * bpow (ex - ey))%R).
  { unfold M. rewrite mult_IZR, <- bpow_IZR by lia.
    rewrite Rmult_assoc, <- bpow_plus. do 2 f_equal. unfold s. lia. }
  assert (Hey : (bpow (ex - ey) * bpow ey = bpow ex)%R).
  { rewrite <- bpow_plus. f_equal. lia. }
  assert (Hmy : (0 < IZR (Zpos my))%R) by (apply IZR_lt; lia).
  pose proof (bpow_gt_0 ey) as Hbey. pose proof (bpow_gt_0 e') as Hbe'.
  pose proof (bpow_gt_0 k) as Hbk.
  assert (HMk : (IZR M * bpow e' <= bpow k * IZR (Zpos my))%R).
  { rewrite Hval. apply Rmult_le_reg_r with (bpow ey); [assumption|].
    rewrite Rmult_assoc, Hey. lra. }
  assert (HqM : (IZR q * IZR (Zpos my) + IZR r = IZR M)%R).
  { rewrite <- mult_IZR, <- plus_IZR. f_equal. lia. }
  assert (Hr0 : (0 <= IZR r)%R) by (apply IZR_le; lia).
  destruct (round_aux_bounds (xorb sx sy) q e'
              (new_location (Zpos my) r) k)
    as [[H _]|(m & e & H & Hb & Hv & _)]; try assumption.
  - apply Rmult_le_reg_r with (IZR (Zpos my)); [assumption|]. nra.
  - intros Hloc. rewrite new_location_exact in Hloc.
    assert (Hr1 : (0 < IZR r)%R) by (apply IZR_lt; lia).
    apply Rmult_lt_reg_r with (IZR (Zpos my)); [assumption|]. nra.
  - left; assumption.
  - right. exists m, e. auto.
Qed.

(** A sum of positive floats below [2^k] rounds to at most [2^k] and loses
    less than one unit of the exponent of that binade. *)
Lemma SFadd_pos_bounds mx ex my ey k :
  emin <= k -> k < emax ->
  (IZR (Zpos mx) * bpow ex + IZR (Zpos my) * bpow ey <= bpow k)%R ->
  (SFadd prec emax (S754_finite false mx ex) (S754_finite false my ey)
     = S754_zero false /\
   (IZR (Zpos mx) * bpow ex + IZR (Zpos my) * bpow ey < bpow (fexp (k + 1)))%R) \/
  exists m e,
    SFadd prec emax (S754_finite false mx ex) (S754_finite false my ey)
      = S754_finite false m e /\
    bounded prec emax m e = true /\
    (IZR (Zpos m) * bpow e <= bpow k)%R /\
    (IZR (Zpos mx) * bpow ex + IZR (Zpos my) * bpow ey - bpow (fexp (k + 1))
     < IZR (Zpos m) * bpow e)%R.
Proof.
  intros Hk1 Hk2 Hle. cbn [SFadd cond_Zopp].
  set (ez := Z.min ex ey).
  pose proof (shl_align_spec mx ex ez) as [_ Hax].
  pose proof (shl_align_spec my ey ez) as [_ Hay].
  replace (Z.min ex ez) with ez in Hax by (unfold ez; lia).
  replace (Z.min ey ez) with ez in Hay by (unfold ez; lia).
  set (a := fst (shl_align mx ex ez)) in *.
  set (b := fst (shl_align my ey ez)) in *.
  change (Z.pos a + Z.pos b) with (Z.pos (a + b)). cbn [binary_normalize].
  assert (Hv : (IZR (Zpos (a + b)) * bpow ez
                = IZR (Zpos mx) * bpow ex + IZR (Zpos my) * bpow ey)%R).
  { rewrite Pos2Z.inj_add, plus_IZR, Hax, Hay, !mult_IZR.
    rewrite <- !bpow_IZR by (unfold ez; lia).
    rewrite Rmult_plus_distr_r, !Rmult_assoc, <- !bpow_plus.
    replace (ex - ez + ez) with ex by lia. replace (ey - ez + ez) with ey by lia.
    reflexivity. }
  rewrite <- Hv in *.
  assert (Hmag : Zdigits2 (Zpos (a + b)) + ez <= k + 1).
  { pose proof (value_digits (Zpos (a + b)) ez ltac:(lia)) as [Hlo _].
    assert (Hb : (bpow (Zdigits2 (Z.pos (a + b)) + ez - 1) <= bpow k)%R) by lra.
    apply bpow_le_inv in Hb. lia. }
  pose proof (bpow_le _ _ (fexp_mono _ _ Hmag)) as Hg.
  destruct (binary_round_bounds false (a + b) ez k Hk1 Hk2 Hle)
    as [[Hr Hlt]|(m & e & Hr & Hb & Hub & Hlb)].
  - left. split; [assumption|lra].
  - right. exists m, e. repeat split; try assumption. lra.
Qed.

(** If a canonical positive float does not compare greater than another
    one, its magnitude is not larger. *)
Lemma compare_not_gt_mag m1 e1 m2 e2 :
  bounded prec emax m1 e1 = true -> bounded prec emax m2 e2 = true ->
  SFcompare (S754_finite false m1 e1) (S754_finite false m2 e2) <> Some Gt ->
  Zdigits2 (Zpos m1) + e1 <= Zdigits2 (Zpos m2) + e2.
Proof.
  intros H1 H2 Hc. apply bounded_canonical in H1, H2.
  destruct H1 as [H1 _], H2 as [H2 _]. cbn [SFcompare] in Hc.
  pose proof (Zdigits2_pos (Zpos m1) ltac:(lia)).
  pose proof (Zdigits2_pos (Zpos m2) ltac:(lia)).
  destruct (Z.compare_spec e1 e2) as [E|E|E].
  - subst e2. assert (Hm : (m1 <= m2)%positive).
    { change (Pos.compare_cont Eq m1 m2) with (Pos.compare m1 m2) in Hc.
      intros Hgt. apply Hc. f_equal. exact Hgt. }
    pose proof (Zdigits2_le (Zpos m1) (Zpos m2) ltac:(lia)). lia.
  - unfold SpecFloat.fexp in *. lia.
  - congruence.
Qed.

End Rounding.

(** ** binary32 and binary64 *)

Lemma f32_prec : 0 < F32.prec. Proof. reflexivity. Qed.
Lemma f32_emax : F32.prec < F32.emax. Proof. reflexivity. Qed.
Lemma f64_prec : 0 < F64.prec. Proof. reflexivity. Qed.
Lemma f64_emax : F64.prec < F64.emax. Proof. reflexivity. Qed.

(** [M_PI] is a canonical binary64 number, and the decimal literal
    3.14159265358979323846 of <cmath> is within half a unit in the last
    place (2^-52) of it. *)
Lemma M_PI_rounds_literal :
  F64.valid F64.M_PI = true /\
  2 * Z.abs (7074237752028440 * 10 ^ 20 - 314159265358979323846 * 2 ^ 51)
    <= 10 ^ 20.
Proof. split; [reflexivity|]. vm_compute. discriminate. Qed.

Lemma bpow_1 : bpow 1 = 2%R.
Proof. unfold bpow. simpl. lra. Qed.

Lemma bpow_0 : bpow 0 = 1%R.
Proof. reflexivity. Qed.

Lemma value_two : (IZR (Zpos 8388608) * bpow (-22) = 2)%R.
Proof.
  change 8388608%positive with (Z.to_pos (2 ^ 23)). simpl Z.to_pos.
  change (Z.pos 8388608) with (2 ^ 23). rewrite <- bpow_IZR by lia.
  rewrite <- bpow_plus. apply bpow_1.
Qed.

Lemma value_one : (IZR (Zpos 8388608) * bpow (-23) = 1)%R.
Proof.
  change (Z.pos 8388608) with (2 ^ 23). rewrite <- bpow_IZR by lia.
  rewrite <- bpow_plus. reflexivity.
Qed.

(** Magnitude facts of a canonical binary32 number. *)
Lemma f32_bounded_range m e :
  bounded F32.prec F32.emax m e = true ->
  -149 <= e <= 104 /\ 1 <= Zdigits2 (Zpos m) <= 24.
Proof.
  intros H. apply bounded_canonical in H. destruct H as [Hc He].
  pose proof (Zdigits2_pos (Zpos m) ltac:(lia)).
  unfold SpecFloat.fexp, SpecFloat.emin, F32.prec, F32.emax in *. lia.
Qed.

(** The promotion of a [float] to [double] is exact. *)
Lemma to_double_exact s m e :
  bounded F32.prec F32.emax m e = true ->
  exists m' e', to_double (S754_finite s m e) = S754_finite s m' e' /\
                bounded F64.prec F64.emax m' e' = true /\
                (IZR (Zpos m') * bpow e' = IZR (Zpos m) * bpow e)%R.
Proof.
  intros H. apply f32_bounded_range in H. cbn [to_double].
  apply (binary_round_exact F64.prec F64.emax f64_prec); 
    unfold SpecFloat.fexp, SpecFloat.emin, F64.prec, F64.emax; lia.
Qed.

Ltac closed_cmp :=
  match goal with
  | |- (_ <= _)%Z => vm_compute; discriminate
  | |- (_ < _)%Z => reflexivity
  | |- @eq bool _ _ => reflexivity
  end.

Lemma below_weaken prec emax x k k' :
  k <= k' -> nonneg_below prec emax x k -> nonneg_below prec emax x k'.
Proof.
  intros Hk [H|(m & e & H & Hb & Hv)]; [left; assumption|right].
  exists m, e. repeat split; try assumption. pose proof (bpow_le k k' Hk). lra.
Qed.

(** [sampleRate / 2.0f] is at most [2^(mag - 1)], [mag] the magnitude of
    the sample rate. *)
Lemma half_bound ms es :
  bounded F32.prec F32.emax ms es = true ->
  below32 (F32.div (S754_finite false ms es) F32.two) (Zdigits2 (Zpos ms) + es - 1).
Proof.
  intros Hb. pose proof (f32_bounded_range ms es Hb) as Hr.
  pose proof (value_digits (Zpos ms) es ltac:(lia)) as [_ Hhi].
  unfold F32.div, F32.two.
  destruct (SFdiv_bounds F32.prec F32.emax f32_prec f32_emax
              false ms es false 8388608 (-22) (Zdigits2 (Zpos ms) + es - 1))
    as [H|(m & e & H & Hbm & Hv)].
  - unfold SpecFloat.emin, F32.prec, F32.emax. lia.
  - unfold F32.emax. lia.
  - rewrite value_two, <- bpow_1, <- bpow_plus.
    replace (Zdigits2 (Z.pos ms) + es - 1 + 1) with (Zdigits2 (Z.pos ms) + es) by lia.
    lra.
  - left. exact H.
  - right. exists m, e. auto.
Qed.

(** The clamped cutoff is at most [2^mag]. *)
Lemma clamp_bound cutoff h k :
  F32.valid cutoff = true -> is_nan cutoff = false ->
  below32 h (k - 1) ->
  below32 (if F32.gtb (F32.fabs cutoff) h then h else F32.fabs cutoff) k.
Proof.
  intros Hv Hn Hh.
  assert (Hh' : below32 h k) by (apply below_weaken with (k - 1); [lia|assumption]).
  destruct (F32.gtb (F32.fabs cutoff) h) eqn:Hg; [assumption|].
  destruct cutoff as [s|s| |s m e]; cbn [F32.fabs SFabs] in *.
  - left. reflexivity.
  - exfalso. destruct Hh as [->|(mh & eh & -> & _)]; discriminate Hg.
  - discriminate Hn.
  - right. exists m, e. split; [reflexivity|]. split; [exact Hv|].
    destruct Hh as [->|(mh & eh & -> & Hbh & Hvh)]; [discriminate Hg|].
    assert (Hc : SFcompare (S754_finite false m e) (S754_finite false mh eh)
                 <> Some Gt).
    { unfold F32.gtb in Hg. intros E. rewrite E in Hg. discriminate. }
    pose proof (compare_not_gt_mag F32.prec F32.emax m e mh eh Hv Hbh Hc) as Hmag.
    pose proof (value_digits (Zpos m) e ltac:(lia)) as [_ Hhi].
    pose proof (value_digits (Zpos mh) eh ltac:(lia)) as [Hlo _].
    assert (Hb : (bpow (Zdigits2 (Z.pos mh) + eh - 1) <= bpow (k - 1))%R) by lra.
    apply bpow_le_inv in Hb.
    pose proof (bpow_le (Zdigits2 (Z.pos m) + e) k ltac:(lia)). lra.
Qed.

Lemma two_pi_eq : two_pi = S754_finite false 7074237752028440 (-50).
Proof. reflexivity. Qed.

(** [omega] is at most 16: the clamped cutoff is at most [2^mag], twice pi
    is below 8, and the sample rate is at least [2^(mag - 1)]. *)
Lemma omega_bound c ms es :
  bounded F32.prec F32.emax ms es = true ->
  below32 c (Zdigits2 (Zpos ms) + es) ->
  below32 (to_float (F64.div (F64.mul two_pi (to_double c))
                             (to_double (S754_finite false ms es)))) 4.
Proof.
  intros Hbs Hc. pose proof (f32_bounded_range ms es Hbs) as Hr.
  set (mag := Zdigits2 (Zpos ms) + es) in *.
  destruct (to_double_exact false ms es Hbs) as (md & ed & -> & Hbd & Hvd).
  pose proof (value_digits (Zpos ms) es ltac:(lia)) as [Hslo _]. fold mag in Hslo.
  rewrite two_pi_eq.
  destruct Hc as [->|(mc & ec & -> & Hbc & Hvc)]; [left; reflexivity|].
  destruct (to_double_exact false mc ec Hbc) as (mc' & ec' & -> & Hbc' & Hvc').
  (* 2 pi c, in binary64 *)
  assert (Hmul : below64 (F64.mul (S754_finite false 7074237752028440 (-50))
                                  (S754_finite false mc' ec')) (mag + 3)).
  { destruct (SFmul_bounds F64.prec F64.emax f64_prec f64_emax
                false 7074237752028440 (-50) false mc' ec' (mag + 3))
      as [H|(m & e & H & Hb & Hv)]; try assumption; try closed_cmp.
    - unfold SpecFloat.emin, F64.prec, F64.emax, mag. lia.
    - unfold F64.emax, mag. lia.
    - rewrite Hvc'. replace (mag + 3) with (3 + mag) by lia. rewrite bpow_plus.
      assert (H2pi : (IZR 7074237752028440 * bpow (-50) <= bpow 3)%R)
        by (apply IZR_bpow_le; [lia|]; vm_compute; discriminate).
      assert (H0 : (0 <= IZR (Z.pos mc) * bpow ec)%R).
      { pose proof (bpow_gt_0 ec). assert (0 < IZR (Zpos mc))%R by (apply IZR_lt; lia).
        nra. }
      assert (H1 : (0 < IZR 7074237752028440 * bpow (-50))%R).
      { pose proof (bpow_gt_0 (-50)). lra. }
      pose proof (bpow_gt_0 3). nra.
    - left; exact H.
    - right; exists m, e; auto. }
  unfold F64.mul in *.
  destruct Hmul as [->|(m2 & e2 & -> & Hb2 & Hv2)]; [left; reflexivity|].
  (* divided by the sample rate *)
  assert (Hdiv : below64 (F64.div (S754_finite false m2 e2)
                                  (S754_finite false md ed)) 4).
  { destruct (SFdiv_bounds F64.prec F64.emax f64_prec f64_emax
                false m2 e2 false md ed 4)
      as [H|(m & e & H & Hb & Hv)]; try closed_cmp.
    - rewrite Hvd.
      replace (mag + 3) with (4 + (mag - 1)) in Hv2 by lia.
      rewrite bpow_plus in Hv2. pose proof (bpow_gt_0 4). nra.
    - left; exact H.
    - right; exists m, e; auto. }
  unfold F64.div in *.
  destruct Hdiv as [->|(m3 & e3 & -> & Hb3 & Hv3)]; [left; reflexivity|].
  (* narrowed to binary32 *)
  cbn [to_float].
  destruct (binary_round_bounds F32.prec F32.emax f32_prec f32_emax false m3 e3 4)
    as [[H _]|(m & e & H & Hb & Hv & _)]; try closed_cmp; try assumption.
  - left; exact H.
  - right; exists m, e; auto.
Qed.

(** A canonical positive float of value at most 1 compares [<= 1.0f]. *)
Lemma leb_one m e :
  bounded F32.prec F32.emax m e = true ->
  (IZR (Zpos m) * bpow e <= bpow 0)%R ->
  F32.leb (S754_finite false m e) F32.one = true.
Proof.
  intros Hb Hv. pose proof (f32_bounded_range m e Hb) as Hr.
  apply bounded_canonical in Hb. destruct Hb as [Hc _].
  unfold F32.leb, SFleb, F32.one. cbn [SFcompare].
  destruct (Z.compare_spec e (-23)) as [E|E|E]; [|reflexivity|exfalso].
  - subst e. apply IZR_bpow_le in Hv; [|lia].
    rewrite Pos.compare_cont_spec.
    destruct (Pos.compare_spec m 8388608) as [C|C|C]; try reflexivity.
    change (2 ^ (0 - -23)) with 8388608 in Hv. lia.
  - pose proof (value_digits (Zpos m) e ltac:(lia)) as [Hlo _].
    assert (Hd : Zdigits2 (Zpos m) = 24)
      by (unfold SpecFloat.fexp, SpecFloat.emin, F32.prec, F32.emax in Hc; lia).
    assert (Hl : (bpow (Zdigits2 (Z.pos m) + e - 1) <= bpow 0)%R) by lra.
    apply bpow_le_inv in Hl. lia.
Qed.

(** [omega + 1.0f] is not below [omega], so the quotient is at most 1. *)
Lemma alpha_below omega :
  below32 omega 4 -> below32 (F32.div omega (F32.add omega F32.one)) 0.
Proof.
  intros [->|(mo & eo & -> & Hbo & Hvo)]; [left; reflexivity|].
  unfold F32.add, F32.one.
  assert (Hpos : (0 < IZR (Zpos mo) * bpow eo)%R).
  { pose proof (bpow_gt_0 eo). assert (0 < IZR (Zpos mo))%R by (apply IZR_lt; lia).
    nra. }
  assert (H45 : (bpow 4 + 1 <= bpow 5)%R).
  { rewrite !bpow_IZR by lia. simpl. lra. }
  assert (Hg : (bpow (SpecFloat.fexp F32.prec F32.emax (5 + 1)) <= 1)%R).
  { change 1%R with (bpow 0). apply bpow_le. vm_compute. discriminate. }
  destruct (SFadd_pos_bounds F32.prec F32.emax f32_prec f32_emax
              mo eo 8388608 (-23) 5)
    as [[_ Hlt]|(m & e & -> & Hb & Hub & Hlb)]; try closed_cmp.
  - rewrite value_one. lra.
  - exfalso. rewrite value_one in Hlt. lra.
  - rewrite value_one in Hlb. unfold F32.div.
    destruct (SFdiv_bounds F32.prec F32.emax f32_prec f32_emax
                false mo eo false m e 0)
      as [H|(ma & ea & H & Hba & Hva)]; try closed_cmp.
    + rewrite bpow_0. lra.
    + left. exact H.
    + right. exists ma, ea. auto.
Qed.

Lemma below_0_unit x :
  below32 x 0 ->
  F32.leb F32.zero x = true /\ F32.leb x F32.one = true /\
  (0 <= B2R x <= 1)%R.
Proof.
  intros [->|(m & e & -> & Hb & Hv)].
  - repeat split; try reflexivity; simpl; lra.
  - split; [reflexivity|]. split; [apply leb_one; assumption|].
    cbn [B2R cond_Zopp]. rewrite bpow_0 in Hv. split; [|exact Hv].
    pose proof (bpow_gt_0 e). assert (0 < IZR (Zpos m))%R by (apply IZR_lt; lia).
    nra.
Qed.

(** A NaN cutoff is outside the theorem below: it comes back as NaN. *)
Lemma calculateAlpha_nan sr : Filter.calculateAlpha S754_nan sr = S754_nan.
Proof.
  unfold Filter.calculateAlpha. cbn [F32.fabs SFabs].
  replace (F32.gtb S754_nan (F32.div sr F32.two)) with false by reflexivity.
  cbn [to_double]. unfold F64.mul. 
  replace (SFmul F64.prec F64.emax
             (SFmul F64.prec F64.emax (to_double F32.two) F64.M_PI) S754_nan)
    with S754_nan by reflexivity.
  reflexivity.
Qed.

(** C6: for every cutoff that is a number (finite or infinite, of either
    sign) and every finite, strictly positive sample rate, [calculateAlpha]
    returns [omega / (omega + 1)] with [omega = 2 pi c / sampleRate] and
    [c = min(|cutoff|, sampleRate / 2)], and the result lies between 0 and
    1: for the float comparisons, and as a real number. *)
Theorem calculateAlpha_bounds cutoff sr :
  F32.valid cutoff = true -> is_nan cutoff = false ->
  F32.valid sr = true -> is_finite_pos sr = true ->
  let omega := omega_of (fmin (F32.fabs cutoff) (F32.div sr F32.two)) sr in
  Filter.calculateAlpha cutoff sr = F32.div omega (F32.add omega F32.one) /\
  F32.leb F32.zero (Filter.calculateAlpha cutoff sr) = true /\
  F32.leb (Filter.calculateAlpha cutoff sr) F32.one = true /\
  (0 <= B2R (Filter.calculateAlpha cutoff sr) <= 1)%R.
Proof.
  intros Hvc Hnc Hvs Hps omega.
  assert (E : Filter.calculateAlpha cutoff sr
              = F32.div omega (F32.add omega F32.one)) by reflexivity.
  split; [exact E|]. rewrite E. apply below_0_unit, alpha_below.
  destruct sr as [| | |[|] ms es]; try discriminate Hps.
  unfold omega, omega_of, fmin. fold two_pi.
  apply omega_bound; [exact Hvs|].
  apply clamp_bound; try assumption. apply half_bound. exact Hvs.
Qed.

Lemma calculateAlpha_bounds_witness :
  F32.leb F32.zero (Filter.calculateAlpha (f32 250) (f32 44100)) = true /\
  F32.leb (Filter.calculateAlpha (f32 250) (f32 44100)) F32.one = true.
Proof.
  destruct (calculateAlpha_bounds (f32 250) (f32 44100)
              eq_refl eq_refl eq_refl eq_refl) as (_ & H0 & H1 & _).
  split; assumption.
Defined.

(** * Part III: frames, ports and degenerate coefficients *)

Section Frames.
Import F32.

(** ** The accumulation of the Pass module *)

Lemma addLanes_length inputVoltages : forall n i vs,
  length (Pass.addLanes inputVoltages i n vs) = length vs.
Proof.
  induction n as [|n IH]; intros i [|v vs]; cbn [Pass.addLanes length]; auto.
Qed.

Lemma addLanes_tabulate inputVoltages (h : nat -> float) : forall m k c,
  Pass.addLanes inputVoltages k c (map h (seq k m))
  = map (fun i => if (i <? k + c)%nat then add (h i) (inputVoltages i) else h i)
        (seq k m).
Proof.
  induction m as [|m IH]; intros k c.
  - destruct c; reflexivity.
  - destruct c as [|c]; cbn [seq map Pass.addLanes].
    + f_equal.
      * replace (k <? k + 0)%nat with false by (symmetry; apply Nat.ltb_ge; lia).
        reflexivity.
      * apply map_ext_in. intros i Hi. apply in_seq in Hi.
        replace (i <? k + 0)%nat with false by (symmetry; apply Nat.ltb_ge; lia).
        reflexivity.
    + f_equal.
      * replace (k <? k + S c)%nat with true by (symmetry; apply Nat.ltb_lt; lia).
        reflexivity.
      * rewrite IH. apply map_ext. intros i.
        replace (S k + c)%nat with (k + S c)%nat by lia. reflexivity.
Qed.

Lemma resize_grow_tabulate (g : nat -> float) n c :
  (n < c)%nat ->
  resize_grow c (map g (seq 0 n))
  = map (fun i => if (i <? n)%nat then g i else zero) (seq 0 c).
Proof.
  intros H. unfold resize_grow. rewrite length_map, length_seq.
  replace c with (n + (c - n))%nat at 2 by lia.
  rewrite seq_app, map_app. f_equal.
  - apply map_ext_in. intros i Hi. apply in_seq in Hi.
    replace (i <? n)%nat with true by (symmetry; apply Nat.ltb_lt; lia).
    reflexivity.
  - cbn [Nat.add]. generalize (c - n)%nat as d. intros d.
    assert (E : forall a, (n <= a)%nat ->
              repeat zero d
              = map (fun i => if (i <? n)%nat then g i else zero) (seq a d)).
    { induction d as [|d IH]; intros a Ha; [reflexivity|].
      cbn [repeat seq map]. f_equal; [|apply IH; lia].
      replace (a <? n)%nat with false by (symmetry; apply Nat.ltb_ge; lia).
      reflexivity. }
    apply E. lia.
Qed.

(** One port added to a buffer given lane by lane. *)
Lemma processInput_tabulate p (g : nat -> float) n k :
  Pass.processInput p (map g (seq 0 n), k)
  = (map (fun i => addPort p i (if (i <? n)%nat then g i else zero))
         (seq 0 (Nat.max n (portChannels p))),
     k + Z.of_nat (portChannels p)).
Proof.
  unfold Pass.processInput, addPort. unfold portChannels.
  destruct (Pass.isConnected p); cbn [negb].
  - rewrite length_map, length_seq.
    destruct (Nat.ltb_spec n (Pass.getChannels p)) as [Hlt|Hge].
    + rewrite resize_grow_tabulate by exact Hlt.
      rewrite (addLanes_tabulate (Pass.lane p) _ (Pass.getChannels p) 0).
      replace (Nat.max n (Pass.getChannels p)) with (Pass.getChannels p) by lia.
      reflexivity.
    + rewrite (addLanes_tabulate (Pass.lane p) g n 0).
      replace (Nat.max n (Pass.getChannels p)) with n by lia.
      f_equal. apply map_ext_in. intros i Hi. apply in_seq in Hi.
      replace (i <? n)%nat with true by (symmetry; apply Nat.ltb_lt; lia).
      reflexivity.
  - rewrite Nat.max_0_r, Z.add_0_r. f_equal.
    apply map_ext_in. intros i Hi. apply in_seq in Hi.
    replace (i <? 0)%nat with false by reflexivity.
    replace (i <? n)%nat with true by (symmetry; apply Nat.ltb_lt; lia).
    reflexivity.
Qed.

Lemma addPort_outside p i acc :
  (portChannels p <= i)%nat -> addPort p i acc = acc.
Proof.
  intros H. unfold addPort.
  replace (i <? portChannels p)%nat with false by (symmetry; apply Nat.ltb_ge; lia).
  reflexivity.
Qed.

(** The three ports added to the empty buffer. *)
Lemma processInputs_tabulate f s :
  Pass.voltages (fst (Pass.processInputs f s))
    = map (sumLane f) (seq 0 (maxChannels f)) /\
  Pass.num_channels (fst (Pass.processInputs f s)) = Z.of_nat (totalChannels f) /\
  snd (Pass.processInputs f s) = [].
Proof.
  unfold Pass.processInputs, maxChannels, totalChannels, sumLane.
  set (p1 := Pass.inputs f Pass.IN_1_INPUT).
  set (p2 := Pass.inputs f Pass.IN_2_INPUT).
  set (p3 := Pass.inputs f Pass.IN_3_INPUT).
  change (@nil float) with (map (fun _ : nat => zero) (seq 0 0)).
  rewrite !processInput_tabulate. cbn [fst snd Pass.voltages Pass.num_channels].
  split; [|split; [lia|reflexivity]].
  rewrite Nat.max_0_l. apply map_ext. intros i.
  f_equal.
  destruct (Nat.ltb_spec i (Nat.max (portChannels p1) (portChannels p2))) as [H|H].
  - f_equal. destruct (Nat.ltb_spec i (portChannels p1)) as [H1|H1].
    + replace (i <? 0)%nat with false by reflexivity. reflexivity.
    + replace (i <? 0)%nat with false by reflexivity.
      now rewrite addPort_outside.
  - rewrite !addPort_outside by lia. reflexivity.
Qed.

(** X1: [processInputs] forgets the previous buffer and total; it leaves as
    many lanes as the widest connected port has channels, each the sum of
    the ports that have that lane, added in port order from 0.0, and a total
    that is the sum of the connected ports' channel counts. *)
Theorem processInputs_sums_lanes f s :
  Pass.voltages (fst (Pass.processInputs f s))
    = map (sumLane f) (seq 0 (maxChannels f)) /\
  Pass.num_channels (fst (Pass.processInputs f s)) = Z.of_nat (totalChannels f) /\
  snd (Pass.processInputs f s) = [].
Proof.
  unfold Pass.processInputs, maxChannels, totalChannels, sumLane.
  set (p1 := Pass.inputs f Pass.IN_1_INPUT).
  set (p2 := Pass.inputs f Pass.IN_2_INPUT).
  set (p3 := Pass.inputs f Pass.IN_3_INPUT).
  change (@nil float) with (map (fun _ : nat => zero) (seq 0 0)).
  rewrite !processInput_tabulate. cbn [fst snd Pass.voltages Pass.num_channels].
  split; [|split; [lia|reflexivity]].
  rewrite Nat.max_0_l. apply map_ext. intros i.
  f_equal.
  destruct (Nat.ltb_spec i (Nat.max (portChannels p1) (portChannels p2))) as [H|H].
  - f_equal. destruct (Nat.ltb_spec i (portChannels p1)) as [H1|H1].
    + replace (i <? 0)%nat with false by reflexivity. reflexivity.
    + replace (i <? 0)%nat with false by reflexivity.
      now rewrite addPort_outside.
  - rewrite !addPort_outside by lia. reflexivity.
Qed.

Lemma maxChannels_le_total f : (maxChannels f <= totalChannels f)%nat.
Proof. unfold maxChannels, totalChannels. lia. Qed.

Lemma maxChannels_0 f : totalChannels f = 0%nat -> maxChannels f = 0%nat.
Proof. pose proof (maxChannels_le_total f). lia. Qed.

Lemma updatePowerState_log f s :
  snd (Pass.updatePowerState f s)
  = [Pass.SetBrightness Pass.POWER_LIGHT_LIGHT
       (if Pass.state_on (fst (Pass.updatePowerState f s)) then one else zero)].
Proof. reflexivity. Qed.

Lemma updateModeStates_log f s :
  snd (Pass.updateModeStates f s)
  = [Pass.SetBrightness Pass.SUM_LIGHT_LIGHT
       (if Pass.state_on_sum (fst (Pass.updateModeStates f s)) then one else zero);
     Pass.SetBrightness Pass.AVG_LIGHT_LIGHT
       (if Pass.state_on_avg (fst (Pass.updateModeStates f s)) then one else zero)].
Proof.
  unfold Pass.updateModeStates.
  destruct (eqb (Pass.SUM_PARAM f) _ && _), (eqb (Pass.AVG_PARAM f) _ && _);
    reflexivity.
Qed.

(** X2: a powered-on frame with a mode active and at least one channel on
    the connected ports leaves and sends the lane-wise sums (sum mode), or
    these sums each divided by the total channel count of the connected
    ports (average mode: not by the number of ports that have the lane);
    the calls before are the three light updates. *)
Theorem active_frame_output f s :
  Pass.state_on (fst (Pass.updatePowerState f s)) = true ->
  Pass.state_on_sum (fst (Pass.updateModeStates f (fst (Pass.updatePowerState f s))))
  || Pass.state_on_avg (fst (Pass.updateModeStates f (fst (Pass.updatePowerState f s))))
  = true ->
  (0 < totalChannels f)%nat ->
  let sum :=
    Pass.state_on_sum (fst (Pass.updateModeStates f (fst (Pass.updatePowerState f s)))) in
  let avg :=
    Pass.state_on_avg (fst (Pass.updateModeStates f (fst (Pass.updatePowerState f s)))) in
  let out :=
    map (fun i => if avg
                  then div (sumLane f i) (of_int (Z.of_nat (totalChannels f)))
                  else sumLane f i)
        (seq 0 (maxChannels f)) in
  Pass.voltages (fst (Pass.process f s)) = out /\
  Pass.num_channels (fst (Pass.process f s)) = Z.of_nat (totalChannels f) /\
  snd (Pass.process f s)
  = [Pass.SetBrightness Pass.POWER_LIGHT_LIGHT one;
     Pass.SetBrightness Pass.SUM_LIGHT_LIGHT (if sum then one else zero);
     Pass.SetBrightness Pass.AVG_LIGHT_LIGHT (if avg then one else zero);
     Pass.SetChannels Pass.OUT_1_OUTPUT 1;
     Pass.WriteVoltages Pass.OUT_1_OUTPUT out].
Proof.
  intros Hon Hmode Htot sum avg out.
  rewrite process_powered_on by exact Hon. cbn [fst snd].
  rewrite updatePowerState_log, updateModeStates_log, Hon.
  set (s2 := fst (Pass.updateModeStates f (fst (Pass.updatePowerState f s)))) in *.
  rewrite Pass_andThen_eq. cbn [fst snd].
  rewrite (Pass_when_true _ (Pass.processInputs f) s2) by exact Hmode.
  destruct (processInputs_tabulate f s2) as (Hv & Hn & Hl).
  set (s3 := fst (Pass.processInputs f s2)) in *. rewrite Hl.
  assert (Havg3 : Pass.state_on_avg s3 = Pass.state_on_avg s2).
  { apply (processInputs_keepsModes f s2). }
  rewrite Pass_when_true by (cbv beta; rewrite Hn; apply Z.ltb_lt; lia).
  rewrite Pass_andThen_eq. unfold Pass.sendOutput. cbn [fst snd app].
  unfold Pass.when. rewrite Havg3. subst sum avg out.
  destruct (Pass.state_on_avg s2);
    cbn [negb fst snd app Pass.applyAverage Pass.skip Pass.voltages
         Pass.num_channels].
  - rewrite Hv, Hn, map_map. repeat split; reflexivity.
  - rewrite Hv, Hn. repeat split; reflexivity.
Qed.

Lemma active_frame_output_witness :
  let f := passFrame 1 0 1 polyInput (monoInput (f32 4)) noInput in
  Pass.voltages (fst (Pass.process f Pass.init))
    = [div (f32 5) (f32 4); div (f32 2) (f32 4); div (f32 3) (f32 4)] /\
  Pass.num_channels (fst (Pass.process f Pass.init)) = 4.
Proof.
  intros f.
  destruct (active_frame_output f Pass.init eq_refl eq_refl) as (Hv & Hn & _).
  - vm_compute. lia.
  - split; [rewrite Hv|rewrite Hn]; reflexivity.
Defined.

(** X3: a powered-on frame with a mode active but no channel on any
    connected port empties the buffer, zeroes the total and makes no call on
    the output port: the port is neither written nor set to 0 channels. *)
Theorem active_frame_without_input f s :
  Pass.state_on (fst (Pass.updatePowerState f s)) = true ->
  Pass.state_on_sum (fst (Pass.updateModeStates f (fst (Pass.updatePowerState f s))))
  || Pass.state_on_avg (fst (Pass.updateModeStates f (fst (Pass.updatePowerState f s))))
  = true ->
  totalChannels f = 0%nat ->
  Pass.voltages (fst (Pass.process f s)) = [] /\
  Pass.num_channels (fst (Pass.process f s)) = 0 /\
  filter isPortCall (snd (Pass.process f s)) = [].
Proof.
  intros Hon Hmode Htot.
  rewrite process_powered_on by exact Hon. cbn [fst snd].
  rewrite updatePowerState_log, updateModeStates_log.
  set (s2 := fst (Pass.updateModeStates f (fst (Pass.updatePowerState f s)))) in *.
  rewrite Pass_andThen_eq. cbn [fst snd].
  rewrite (Pass_when_true _ (Pass.processInputs f) s2) by exact Hmode.
  destruct (processInputs_tabulate f s2) as (Hv & Hn & Hl).
  rewrite (maxChannels_0 f Htot) in Hv. rewrite Htot in Hn.
  set (s3 := fst (Pass.processInputs f s2)) in *. rewrite Hl.
  rewrite Pass_when_false by (cbv beta; rewrite Hn; reflexivity).
  cbn [fst snd app]. repeat split; assumption || reflexivity.
Qed.

Lemma active_frame_without_input_witness :
  let f := passFrame 0 1 0 noInput noInput noInput in
  let s := fst (Pass.process
                  (passFrame 1 1 0 (monoInput (f32 4)) (monoInput (f32 2)) noInput)
                  Pass.init) in
  Pass.voltages s = [f32 6] /\
  Pass.voltages (fst (Pass.process f s)) = [] /\
  filter isPortCall (snd (Pass.process f s)) = [].
Proof.
  intros f s.
  destruct (active_frame_without_input f s eq_refl eq_refl eq_refl) as (Hv & _ & Hl).
  split; [reflexivity|]. split; [exact Hv|exact Hl].
Defined.

(** X4: a frame that ends powered off sets the output to 0 channels and
    the two mode lights to 0, clears both mode flags, and touches nothing
    else: the buffer and the channel total survive, and the mode triggers
    are not sampled ([last_state_sum] and [last_state_avg] keep their
    values whatever the two buttons hold). *)
Theorem powered_off_frame f s :
  Pass.state_on (fst (Pass.updatePowerState f s)) = false ->
  Pass.process f s =
  ({| Pass.num_channels := Pass.num_channels s; Pass.voltages := Pass.voltages s;
      Pass.state_on := false; Pass.last_state := passRaw f;
      Pass.state_on_avg := false; Pass.last_state_avg := Pass.last_state_avg s;
      Pass.state_on_sum := false; Pass.last_state_sum := Pass.last_state_sum s |},
   [Pass.SetBrightness Pass.POWER_LIGHT_LIGHT zero;
    Pass.SetChannels Pass.OUT_1_OUTPUT 0;
    Pass.SetBrightness Pass.SUM_LIGHT_LIGHT zero;
    Pass.SetBrightness Pass.AVG_LIGHT_LIGHT zero]).
Proof.
  intros Hoff. unfold Pass.process. rewrite Pass_andThen_eq, Hoff. cbn [negb].
  rewrite updatePowerState_log, Hoff.
  unfold Pass.disableOutput. cbn [fst snd app]. f_equal.
  destruct (Pass_updatePowerState_step f s) as [_ Hlast].
  cbv zeta in Hlast. rewrite Hoff, Hlast. reflexivity.
Qed.

Lemma powered_off_frame_witness :
  let f := passFrame 0 1 1 (monoInput (f32 4)) noInput noInput in
  Pass.last_state_sum (fst (Pass.process f staleState)) = false /\
  Pass.voltages (fst (Pass.process f staleState)) = [f32 6].
Proof.
  intros f. rewrite (powered_off_frame f staleState eq_refl).
  split; reflexivity.
Defined.

(** ** An invariant of the Pass module *)

Lemma andThen_preserves P a b :
  preserves P a -> preserves P b -> preserves P (Pass.andThen a b).
Proof.
  intros Ha Hb s H. rewrite Pass_andThen_eq. cbn [fst]. apply Hb, Ha, H.
Qed.

Lemma when_preserves P c a : preserves P a -> preserves P (Pass.when c a).
Proof.
  intros Ha s H. unfold Pass.when, Pass.skip. destruct (c s); [apply Ha, H|exact H].
Qed.

Lemma processInputs_within f s : bufferWithinTotal (fst (Pass.processInputs f s)).
Proof.
  unfold bufferWithinTotal.
  destruct (processInputs_tabulate f s) as (Hv & Hn & _).
  rewrite Hv, Hn, length_map, length_seq.
  pose proof (maxChannels_le_total f). lia.
Qed.

Lemma process_within f : preserves bufferWithinTotal (Pass.process f).
Proof.
  unfold Pass.process. apply andThen_preserves; [intros s H; exact H|].
  intros s H. destruct (negb (Pass.state_on s)); [exact H|].
  revert s H. apply andThen_preserves; [|apply andThen_preserves].
  - intros s H. unfold bufferWithinTotal.
    destruct (updateModeStates_buffer f s) as [-> ->]. exact H.
  - apply when_preserves. intros s _. apply processInputs_within.
  - apply when_preserves, andThen_preserves.
    + apply when_preserves. intros s H. unfold bufferWithinTotal, Pass.applyAverage.
      cbn [fst Pass.voltages Pass.num_channels]. rewrite length_map. exact H.
    + intros s H. exact H.
Qed.

(** X5: after any sequence of frames from the initial state the buffer
    has at most [num_channels] lanes; in particular the guard
    [num_channels > 0] of [process] holds whenever the buffer is not
    empty. *)
Theorem buffer_within_channel_total (fs : list Pass.Frame) :
  let s := fst (Pass.run fs Pass.init) in
  Z.of_nat (length (Pass.voltages s)) <= Pass.num_channels s /\
  (Pass.voltages s <> [] -> 0 < Pass.num_channels s).
Proof.
  intros s.
  assert (H : bufferWithinTotal s).
  { subst s. generalize Pass.init, (Z.le_refl 0 : bufferWithinTotal Pass.init).
    induction fs as [|f fs IH]; intros s0 H0; [exact H0|].
    cbn [Pass.run]. pose proof (process_within f s0 H0) as H1.
    destruct (Pass.process f s0) as [s1 l1]. cbn [fst] in H1.
    specialize (IH s1 H1). destruct (Pass.run fs s1) as [s2 l2]. exact IH. }
  split; [exact H|]. intros Hne. unfold bufferWithinTotal in H.
  destruct (Pass.voltages s); [contradiction|]. cbn [length] in H. lia.
Qed.

Lemma buffer_within_channel_total_witness :
  0 < Pass.num_channels (fst (Pass.run staleSession Pass.init)).
Proof.
  apply (buffer_within_channel_total staleSession). discriminate.
Defined.

(** ** The frame of the Filter module *)

Lemma Filter_andThen_eq a b s :
  Filter.andThen a b s
  = (fst (b (fst (a s))), snd (a s) ++ snd (b (fst (a s)))).
Proof.
  unfold Filter.andThen. destruct (a s) as [s1 l1]. cbn [fst snd].
  destruct (b s1) as [s2 l2]. reflexivity.
Qed.

Lemma lowPassLoop_length alpha : forall vs p,
  length (fst (Filter.lowPassLoop alpha vs p)) = length vs.
Proof.
  induction vs as [|x vs IH]; intros p; [reflexivity|].
  cbn [Filter.lowPassLoop]. specialize (IH (add (mul alpha x) (mul (sub one alpha) p))).
  destruct (Filter.lowPassLoop alpha vs _) as [ys q]. cbn [fst length] in *. lia.
Qed.

Lemma bandPassLoop_length aL aH : forall vs p,
  length (fst (Filter.bandPassLoop aL aH vs p)) = length vs.
Proof.
  induction vs as [|x vs IH]; intros p; [reflexivity|].
  cbn [Filter.bandPassLoop].
  match goal with |- context [Filter.bandPassLoop aL aH vs ?q] => specialize (IH q) end.
  destruct (Filter.bandPassLoop aL aH vs _) as [ys q]. cbn [fst length] in *. lia.
Qed.

Lemma highPassLoop_length alpha : forall vs p,
  length (fst (Filter.highPassLoop alpha vs p)) = length vs.
Proof.
  induction vs as [|x vs IH]; intros p; [reflexivity|].
  cbn [Filter.highPassLoop].
  match goal with |- context [Filter.highPassLoop alpha vs ?q] => specialize (IH q) end.
  destruct (Filter.highPassLoop alpha vs _) as [ys q]. cbn [fst length] in *. lia.
Qed.

Lemma highPassLoop_pLow alpha : forall vs p,
  Filter.pLow (snd (Filter.highPassLoop alpha vs p)) = Filter.pLow p.
Proof.
  induction vs as [|x vs IH]; intros p; [reflexivity|].
  cbn [Filter.highPassLoop].
  match goal with |- context [Filter.highPassLoop alpha vs ?q] => specialize (IH q) end.
  destruct (Filter.highPassLoop alpha vs _) as [ys q]. cbn [snd] in *. exact IH.
Qed.

Lemma Prev_eta q :
  {| Filter.pLow := Filter.pLow q; Filter.pHigh := Filter.pHigh q;
     Filter.pInput := Filter.pInput q |} = q.
Proof. now destruct q. Qed.

(** What each stage does, in one equation. *)
Lemma ApplyLowPass_eq f s :
  Filter.ApplyLowPass f s =
  if Filter.out_connected f Filter.OUT_1_OUTPUT then
    let alpha := Filter.calculateAlpha (Filter.FRQ_PARAM f) (Filter.sampleRate s) in
    let r := Filter.lowPassLoop alpha (Filter.voltages s) (Filter.prevLowPassSample s) in
    ({| Filter.voltages := fst r; Filter.state_on := Filter.state_on s;
        Filter.last_state := Filter.last_state s;
        Filter.prevLowPassSample := snd r;
        Filter.prevHighPassSample := Filter.prevHighPassSample s;
        Filter.prevInputSample := Filter.prevInputSample s;
        Filter.sampleRate := Filter.sampleRate s |},
     [Filter.SetChannels Filter.OUT_1_OUTPUT (Z.of_nat (length (Filter.voltages s)));
      Filter.WriteVoltages Filter.OUT_1_OUTPUT (fst r)])
  else (s, []).
Proof.
  unfold Filter.ApplyLowPass.
  destruct (Filter.out_connected f Filter.OUT_1_OUTPUT); [|reflexivity].
  cbn [negb]. cbv zeta. now destruct (Filter.lowPassLoop _ _ _).
Qed.

Lemma ApplyBandPass_eq f s :
  Filter.ApplyBandPass f s =
  if Filter.out_connected f Filter.OUT_2_OUTPUT then
    let cutoff := Filter.FRQ_PARAM f in
    let alphaLow :=
      Filter.calculateAlpha (fabs (sub cutoff (of_int 5))) (Filter.sampleRate s) in
    let alphaHigh :=
      Filter.calculateAlpha (fabs (add cutoff (of_int 5))) (Filter.sampleRate s) in
    let r := Filter.bandPassLoop alphaLow alphaHigh (Filter.voltages s) (prevOf s) in
    ({| Filter.voltages := fst r; Filter.state_on := Filter.state_on s;
        Filter.last_state := Filter.last_state s;
        Filter.prevLowPassSample := Filter.pLow (snd r);
        Filter.prevHighPassSample := Filter.pHigh (snd r);
        Filter.prevInputSample := Filter.pInput (snd r);
        Filter.sampleRate := Filter.sampleRate s |},
     [Filter.SetChannels Filter.OUT_2_OUTPUT (Z.of_nat (length (Filter.voltages s)));
      Filter.WriteVoltages Filter.OUT_2_OUTPUT (fst r)])
  else (s, []).
Proof.
  unfold Filter.ApplyBandPass, prevOf.
  destruct (Filter.out_connected f Filter.OUT_2_OUTPUT); [|reflexivity].
  cbn [negb]. cbv zeta. now destruct (Filter.bandPassLoop _ _ _ _).
Qed.

Lemma ApplyHighPass_eq f s :
  Filter.ApplyHighPass f s =
  if Filter.out_connected f Filter.OUT_3_OUTPUT then
    let alpha := Filter.calculateAlpha (Filter.FRQ_PARAM f) (Filter.sampleRate s) in
    let r := Filter.highPassLoop alpha (Filter.voltages s) (prevOf s) in
    ({| Filter.voltages := fst r; Filter.state_on := Filter.state_on s;
        Filter.last_state := Filter.last_state s;
        Filter.prevLowPassSample := Filter.pLow (snd r);
        Filter.prevHighPassSample := Filter.pHigh (snd r);
        Filter.prevInputSample := Filter.pInput (snd r);
        Filter.sampleRate := Filter.sampleRate s |},
     [Filter.SetChannels Filter.OUT_3_OUTPUT (Z.of_nat (length (Filter.voltages s)));
      Filter.WriteVoltages Filter.OUT_3_OUTPUT (fst r)])
  else (s, []).
Proof.
  unfold Filter.ApplyHighPass, prevOf.
  destruct (Filter.out_connected f Filter.OUT_3_OUTPUT); [|reflexivity].
  cbn [negb]. cbv zeta. now destruct (Filter.highPassLoop _ _ _).
Qed.

Lemma Filter_process_powered_on f s :
  Filter.state_on (fst (Filter.updatePowerState f s)) = true ->
  Filter.process f s =
  (fst (Filter.andThen (Filter.GetInput f)
          (Filter.andThen (Filter.ApplyLowPass f)
             (Filter.andThen (Filter.ApplyBandPass f) (Filter.ApplyHighPass f)))
          (fst (Filter.updatePowerState f s))),
   Filter.SetBrightness Filter.POWER_LIGHT_LIGHT one
   :: snd (Filter.andThen (Filter.GetInput f)
             (Filter.andThen (Filter.ApplyLowPass f)
                (Filter.andThen (Filter.ApplyBandPass f) (Filter.ApplyHighPass f)))
             (fst (Filter.updatePowerState f s)))).
Proof.
  intros Hon. unfold Filter.process. rewrite Filter_andThen_eq, Hon. cbn [negb].
  f_equal. unfold Filter.updatePowerState in *. cbn [fst snd Filter.state_on] in *.
  rewrite Hon. reflexivity.
Qed.

(** X6: a frame that ends powered off sets the three outputs to 0
    channels and changes nothing but the toggle: the buffer and the three
    filter scalars are as the previous frame left them, and no buffer is
    written. *)
Theorem filter_powered_off_frame f s :
  Filter.state_on (fst (Filter.updatePowerState f s)) = false ->
  Filter.process f s =
  ({| Filter.voltages := Filter.voltages s; Filter.state_on := false;
      Filter.last_state := filterRaw f;
      Filter.prevLowPassSample := Filter.prevLowPassSample s;
      Filter.prevHighPassSample := Filter.prevHighPassSample s;
      Filter.prevInputSample := Filter.prevInputSample s;
      Filter.sampleRate := Filter.sampleRate s |},
   [Filter.SetBrightness Filter.POWER_LIGHT_LIGHT zero;
    Filter.SetChannels Filter.OUT_1_OUTPUT 0;
    Filter.SetChannels Filter.OUT_2_OUTPUT 0;
    Filter.SetChannels Filter.OUT_3_OUTPUT 0]).
Proof.
  intros Hoff. unfold Filter.process. rewrite Filter_andThen_eq, Hoff. cbn [negb].
  unfold Filter.disableOutput, Filter.updatePowerState, filterRaw in *.
  cbn [fst snd app Filter.state_on] in *. rewrite Hoff. reflexivity.
Qed.

Lemma filter_powered_off_frame_witness :
  let f := filterFrame 1 250 one in
  let s := filterState [one] in
  Filter.voltages (fst (Filter.process f s)) = [one] /\
  snd (Filter.process f s)
  = [Filter.SetBrightness Filter.POWER_LIGHT_LIGHT zero;
     Filter.SetChannels Filter.OUT_1_OUTPUT 0;
     Filter.SetChannels Filter.OUT_2_OUTPUT 0;
     Filter.SetChannels Filter.OUT_3_OUTPUT 0].
Proof.
  intros f s. rewrite (filter_powered_off_frame f s eq_refl).
  split; reflexivity.
Defined.

Lemma ApplyLowPass_calls f s :
  Forall (laneCall f (length (Filter.voltages s))) (snd (Filter.ApplyLowPass f s)) /\
  length (Filter.voltages (fst (Filter.ApplyLowPass f s))) = length (Filter.voltages s).
Proof.
  rewrite ApplyLowPass_eq.
  destruct (Filter.out_connected f Filter.OUT_1_OUTPUT) eqn:E; cbv zeta;
    cbn [fst snd Filter.voltages]; [|split; [constructor|reflexivity]].
  rewrite lowPassLoop_length. split; [|reflexivity].
  repeat constructor; cbn [laneCall]; auto using lowPassLoop_length.
Qed.

Lemma ApplyBandPass_calls f s :
  Forall (laneCall f (length (Filter.voltages s))) (snd (Filter.ApplyBandPass f s)) /\
  length (Filter.voltages (fst (Filter.ApplyBandPass f s))) = length (Filter.voltages s).
Proof.
  rewrite ApplyBandPass_eq.
  destruct (Filter.out_connected f Filter.OUT_2_OUTPUT) eqn:E; cbv zeta;
    cbn [fst snd Filter.voltages]; [|split; [constructor|reflexivity]].
  rewrite bandPassLoop_length. split; [|reflexivity].
  repeat constructor; cbn [laneCall]; auto using bandPassLoop_length.
Qed.

Lemma ApplyHighPass_calls f s :
  Forall (laneCall f (length (Filter.voltages s))) (snd (Filter.ApplyHighPass f s)) /\
  length (Filter.voltages (fst (Filter.ApplyHighPass f s))) = length (Filter.voltages s).
Proof.
  rewrite ApplyHighPass_eq.
  destruct (Filter.out_connected f Filter.OUT_3_OUTPUT) eqn:E; cbv zeta;
    cbn [fst snd Filter.voltages]; [|split; [constructor|reflexivity]].
  rewrite highPassLoop_length. split; [|reflexivity].
  repeat constructor; cbn [laneCall]; auto using highPassLoop_length.
Qed.

Lemma GetInput_length f s :
  length (Filter.voltages (fst (Filter.GetInput f s))) = laneCount f.
Proof.
  unfold Filter.GetInput, laneCount, read_lanes. cbn [fst Filter.voltages].
  destruct (Filter.in_connected f); [|reflexivity].
  now rewrite length_map, length_seq.
Qed.

(** X7: in a powered-on frame every call on an output port is on a
    connected port, every channel count announced is the number of lanes
    read from the input (0 when the input is disconnected), every buffer
    written has that many lanes, and so has the buffer the frame leaves. *)
Theorem filter_frame_port_calls f s :
  Filter.state_on (fst (Filter.updatePowerState f s)) = true ->
  Forall (laneCall f (laneCount f)) (snd (Filter.process f s)) /\
  length (Filter.voltages (fst (Filter.process f s))) = laneCount f.
Proof.
  intros Hon. rewrite Filter_process_powered_on by exact Hon. cbn [fst snd].
  set (s1 := fst (Filter.updatePowerState f s)).
  rewrite !Filter_andThen_eq. cbn [fst snd].
  pose proof (GetInput_length f s1) as H0.
  set (s2 := fst (Filter.GetInput f s1)) in *.
  destruct (ApplyLowPass_calls f s2) as [C1 L1].
  set (s3 := fst (Filter.ApplyLowPass f s2)) in *.
  destruct (ApplyBandPass_calls f s3) as [C2 L2].
  set (s4 := fst (Filter.ApplyBandPass f s3)) in *.
  destruct (ApplyHighPass_calls f s4) as [C3 L3].
  rewrite L1, H0 in L2. rewrite L2 in L3. rewrite L1, H0 in C2. rewrite L2 in C3.
  rewrite H0 in C1. split; [|exact L3].
  constructor; [exact I|]. cbn [Filter.GetInput snd app].
  repeat (apply Forall_app; split); assumption.
Qed.

Lemma filter_frame_port_calls_witness :
  let f := filterFrame 0 250 one in
  length (Filter.voltages (fst (Filter.process f (filterState [])))) = 1%nat.
Proof.
  intros f. apply (filter_frame_port_calls f (filterState [])). reflexivity.
Defined.

(** X8: with the module on and all three outputs connected, the stages
    form a pipeline over one buffer: the low-pass loop runs on the lanes
    read from the input, the band-pass loop on the lanes the low-pass loop
    wrote (starting from the [prevLowPassSample] it left), the high-pass
    loop on the lanes the band-pass loop wrote (starting from the scalars it
    left), and each output receives the buffer of its own stage. *)
Theorem filter_stages_pipeline f s :
  Filter.state_on (fst (Filter.updatePowerState f s)) = true ->
  (forall o, Filter.out_connected f o = true) ->
  let cutoff := Filter.FRQ_PARAM f in
  let sr := Filter.sampleRate s in
  let input := if Filter.in_connected f
               then read_lanes (Filter.in_lane f) (Filter.in_channels f) else [] in
  let n := Z.of_nat (laneCount f) in
  let low := Filter.lowPassLoop (Filter.calculateAlpha cutoff sr) input
               (Filter.prevLowPassSample s) in
  let band := Filter.bandPassLoop
                (Filter.calculateAlpha (fabs (sub cutoff (of_int 5))) sr)
                (Filter.calculateAlpha (fabs (add cutoff (of_int 5))) sr)
                (fst low)
                {| Filter.pLow := snd low;
                   Filter.pHigh := Filter.prevHighPassSample s;
                   Filter.pInput := Filter.prevInputSample s |} in
  let high := Filter.highPassLoop (Filter.calculateAlpha cutoff sr)
                (fst band) (snd band) in
  Filter.voltages (fst (Filter.process f s)) = fst high /\
  prevOf (fst (Filter.process f s)) = snd high /\
  snd (Filter.process f s)
  = [Filter.SetBrightness Filter.POWER_LIGHT_LIGHT one;
     Filter.SetChannels Filter.OUT_1_OUTPUT n;
     Filter.WriteVoltages Filter.OUT_1_OUTPUT (fst low);
     Filter.SetChannels Filter.OUT_2_OUTPUT n;
     Filter.WriteVoltages Filter.OUT_2_OUTPUT (fst band);
     Filter.SetChannels Filter.OUT_3_OUTPUT n;
     Filter.WriteVoltages Filter.OUT_3_OUTPUT (fst high)].
Proof.
  intros Hon Hout cutoff sr input n low band high.
  rewrite Filter_process_powered_on by exact Hon. cbn [fst snd].
  set (s1 := fst (Filter.updatePowerState f s)).
  rewrite !Filter_andThen_eq. cbn [fst snd].
  pose proof (GetInput_length f s1) as H0.
  set (s2 := fst (Filter.GetInput f s1)) in *.
  assert (Hs2 : Filter.voltages s2 = input) by reflexivity.
  rewrite ApplyLowPass_eq, (Hout Filter.OUT_1_OUTPUT). cbv zeta. cbn [fst snd].
  rewrite ApplyBandPass_eq, (Hout Filter.OUT_2_OUTPUT). cbv zeta. cbn [fst snd].
  rewrite ApplyHighPass_eq, (Hout Filter.OUT_3_OUTPUT). cbv zeta.
  unfold prevOf.
  cbn [fst snd Filter.voltages Filter.prevLowPassSample Filter.prevHighPassSample
       Filter.prevInputSample Filter.sampleRate Filter.GetInput app].
  rewrite !Prev_eta.
  repeat (rewrite lowPassLoop_length || rewrite bandPassLoop_length).
  rewrite H0. repeat split; reflexivity.
Qed.

Lemma filter_stages_pipeline_witness :
  let f := filterFrame 0 250 one in
  let s := filterState [] in
  length (Filter.voltages (fst (Filter.process f s))) = 1%nat /\
  length (snd (Filter.process f s)) = 7%nat.
Proof.
  intros f s.
  destruct (filter_stages_pipeline f s eq_refl (fun o => eq_refl)) as (Hv & _ & Hl).
  split; [rewrite Hv|rewrite Hl]; reflexivity.
Defined.

Lemma ApplyHighPass_empty f s :
  Filter.voltages s = [] ->
  prevOf (fst (Filter.ApplyHighPass f s)) = prevOf s.
Proof.
  intros H. unfold Filter.ApplyHighPass, prevOf.
  destruct (negb _); [reflexivity|]. rewrite H. reflexivity.
Qed.

Lemma stage_on_empty_buffer f s :
  Filter.voltages s = [] ->
  Filter.voltages (fst (Filter.ApplyLowPass f s)) = [] /\
  Filter.voltages (fst (Filter.ApplyBandPass f s)) = [] /\
  Filter.voltages (fst (Filter.ApplyHighPass f s)) = [].
Proof.
  intros H. rewrite ApplyLowPass_eq, ApplyBandPass_eq, ApplyHighPass_eq.
  destruct (Filter.out_connected f Filter.OUT_1_OUTPUT),
           (Filter.out_connected f Filter.OUT_2_OUTPUT),
           (Filter.out_connected f Filter.OUT_3_OUTPUT);
    cbv zeta; cbn [fst Filter.voltages]; rewrite ?H; repeat split; reflexivity.
Qed.

(** X9: with the module on and the input disconnected, the frame leaves an
    empty buffer and the three filter scalars as they were, whichever
    outputs are connected. *)
Theorem filter_frame_without_input f s :
  Filter.state_on (fst (Filter.updatePowerState f s)) = true ->
  Filter.in_connected f = false ->
  Filter.voltages (fst (Filter.process f s)) = [] /\
  prevOf (fst (Filter.process f s)) = prevOf s.
Proof.
  intros Hon Hin. rewrite Filter_process_powered_on by exact Hon. cbn [fst].
  set (s1 := fst (Filter.updatePowerState f s)).
  rewrite !Filter_andThen_eq. cbn [fst].
  set (s2 := fst (Filter.GetInput f s1)).
  assert (E2 : Filter.voltages s2 = []).
  { unfold s2, Filter.GetInput. cbn [fst Filter.voltages]. now rewrite Hin. }
  assert (P2 : prevOf s2 = prevOf s) by reflexivity.
  destruct (stage_on_empty_buffer f s2 E2) as (E3 & _ & _).
  pose proof (ApplyLowPass_empty f s2 E2) as P3.
  set (s3 := fst (Filter.ApplyLowPass f s2)) in *.
  destruct (stage_on_empty_buffer f s3 E3) as (_ & E4 & _).
  pose proof (ApplyBandPass_empty f s3 E3) as P4.
  set (s4 := fst (Filter.ApplyBandPass f s3)) in *.
  destruct (stage_on_empty_buffer f s4 E4) as (_ & _ & E5).
  pose proof (ApplyHighPass_empty f s4 E4) as P5.
  split; [exact E5|congruence].
Qed.

Lemma filter_frame_without_input_witness :
  let f := {| Filter.POWER_PARAM := f32 0; Filter.FRQ_PARAM := f32 250;
              Filter.in_connected := false; Filter.in_channels := 0;
              Filter.in_lane := fun _ => zero;
              Filter.out_connected := fun _ => true |} in
  Filter.voltages (fst (Filter.process f (filterState [one; one]))) = [].
Proof.
  intros f. apply (filter_frame_without_input f (filterState [one; one])); reflexivity.
Defined.

(** ** What the loops persist *)

Lemma last_cons (A : Type) : forall (ys : list A) (y d : A),
  last (y :: ys) d = last ys y.
Proof.
  induction ys as [|a r IH]; intros y d; [reflexivity|].
  change (last (y :: a :: r) d) with (last (a :: r) d). now rewrite !IH.
Qed.

(** X10: after the low-pass loop [prevLowPassSample] is the last lane it
    wrote; after the high-pass loop [prevHighPassSample] and
    [prevInputSample] are both the last lane it wrote; after the band-pass
    loop [prevInputSample] is the last lane it read.  On an empty buffer
    each scalar keeps its value. *)
Theorem loops_persist_last_lane alpha alphaLow alphaHigh vs p :
  snd (Filter.lowPassLoop alpha vs (Filter.pLow p))
    = last (fst (Filter.lowPassLoop alpha vs (Filter.pLow p))) (Filter.pLow p) /\
  Filter.pHigh (snd (Filter.highPassLoop alpha vs p))
    = last (fst (Filter.highPassLoop alpha vs p)) (Filter.pHigh p) /\
  Filter.pInput (snd (Filter.highPassLoop alpha vs p))
    = last (fst (Filter.highPassLoop alpha vs p)) (Filter.pInput p) /\
  Filter.pInput (snd (Filter.bandPassLoop alphaLow alphaHigh vs p))
    = last vs (Filter.pInput p).
Proof.
  repeat split.
  - generalize (Filter.pLow p). induction vs as [|x vs IH]; intros q; [reflexivity|].
    cbn [Filter.lowPassLoop].
    specialize (IH (add (mul alpha x) (mul (sub one alpha) q))).
    destruct (Filter.lowPassLoop alpha vs _) as [ys r]. cbn [fst snd] in *.
    now rewrite last_cons.
  - revert p. induction vs as [|x vs IH]; intros p; [reflexivity|].
    cbn [Filter.highPassLoop].
    match goal with |- context [Filter.highPassLoop alpha vs ?q] => specialize (IH q) end.
    destruct (Filter.highPassLoop alpha vs _) as [ys r]. cbn [fst snd] in *.
    now rewrite last_cons.
  - revert p. induction vs as [|x vs IH]; intros p; [reflexivity|].
    cbn [Filter.highPassLoop].
    match goal with |- context [Filter.highPassLoop alpha vs ?q] => specialize (IH q) end.
    destruct (Filter.highPassLoop alpha vs _) as [ys r]. cbn [fst snd] in *.
    now rewrite last_cons.
  - revert p. induction vs as [|x vs IH]; intros p; [reflexivity|].
    cbn [Filter.bandPassLoop].
    match goal with
    | |- context [Filter.bandPassLoop alphaLow alphaHigh vs ?q] => specialize (IH q)
    end.
    destruct (Filter.bandPassLoop alphaLow alphaHigh vs _) as [ys r].
    cbn [fst snd] in *. now rewrite last_cons.
Qed.

(** X11: no stage changes the toggle or the sample rate; the low-pass
    stage never changes [prevHighPassSample] or [prevInputSample], and the
    high-pass stage never changes [prevLowPassSample]; reading the input
    changes nothing but the buffer. *)
Theorem stages_leave_other_members f s :
  Forall (fun stage : Filter.State -> Filter.State * list Filter.HostCall =>
            Filter.state_on (fst (stage s)) = Filter.state_on s /\
            Filter.last_state (fst (stage s)) = Filter.last_state s /\
            Filter.sampleRate (fst (stage s)) = Filter.sampleRate s)
         [Filter.GetInput f; Filter.ApplyLowPass f; Filter.ApplyBandPass f;
          Filter.ApplyHighPass f] /\
  Filter.prevHighPassSample (fst (Filter.ApplyLowPass f s))
    = Filter.prevHighPassSample s /\
  Filter.prevInputSample (fst (Filter.ApplyLowPass f s))
    = Filter.prevInputSample s /\
  Filter.prevLowPassSample (fst (Filter.ApplyHighPass f s))
    = Filter.prevLowPassSample s /\
  prevOf (fst (Filter.GetInput f s)) = prevOf s.
Proof.
  split; [|split; [|split; [|split]]].
  - repeat constructor.
    all: rewrite ?ApplyLowPass_eq, ?ApplyBandPass_eq, ?ApplyHighPass_eq;
      destruct (Filter.out_connected f _); reflexivity.
  - rewrite ApplyLowPass_eq. now destruct (Filter.out_connected f _).
  - rewrite ApplyLowPass_eq. now destruct (Filter.out_connected f _).
  - rewrite ApplyHighPass_eq. destruct (Filter.out_connected f _); [|reflexivity].
    cbv zeta. cbn [fst Filter.prevLowPassSample]. apply highPassLoop_pLow.
  - reflexivity.
Qed.

(** X12: a powered-on frame does not depend on the buffer the previous
    frame left: the lanes are read afresh from the input. *)
Theorem filter_frame_ignores_old_buffer f s vs :
  Filter.state_on (fst (Filter.updatePowerState f s)) = true ->
  Filter.process f (withVoltages s vs) = Filter.process f s.
Proof.
  intros Hon.
  rewrite (Filter_process_powered_on f s Hon).
  rewrite (Filter_process_powered_on f (withVoltages s vs) Hon).
  rewrite (Filter_andThen_eq (Filter.GetInput f) _ (fst (Filter.updatePowerState f s))).
  rewrite (Filter_andThen_eq (Filter.GetInput f) _
             (fst (Filter.updatePowerState f (withVoltages s vs)))).
  reflexivity.
Qed.

Lemma filter_frame_ignores_old_buffer_witness :
  let f := filterFrame 0 250 one in
  Filter.process f (withVoltages (filterState []) [one; one; one])
  = Filter.process f (filterState []).
Proof.
  intros f. apply (filter_frame_ignores_old_buffer f (filterState [])). reflexivity.
Defined.

End Frames.

(** ** Degenerate and symmetric coefficients *)

Lemma SFcompare_refl_pos m e :
  SFcompare (S754_finite false m e) (S754_finite false m e) = Some Eq.
Proof. cbn [SFcompare]. now rewrite Z.compare_refl, Pos.compare_cont_refl. Qed.

(** X13: at every finite positive sample rate, a cutoff whose magnitude
    exceeds [sampleRate / 2.0f] (an infinite one included) yields exactly
    the coefficient of the cutoff [sampleRate / 2.0f]. *)
Theorem alpha_clamps_to_half_rate cutoff sr :
  F32.valid sr = true -> is_finite_pos sr = true ->
  F32.gtb (F32.fabs cutoff) (F32.div sr F32.two) = true ->
  Filter.calculateAlpha cutoff sr
  = Filter.calculateAlpha (F32.div sr F32.two) sr.
Proof.
  intros Hv Hp Hgt.
  destruct sr as [| | |[|] ms es]; try discriminate Hp.
  pose proof (half_bound ms es Hv) as Hh.
  set (sr := S754_finite false ms es) in *.
  assert (Habs : F32.fabs (F32.div sr F32.two) = F32.div sr F32.two).
  { destruct Hh as [->|(m & e & -> & _)]; reflexivity. }
  assert (Hself : F32.gtb (F32.div sr F32.two) (F32.div sr F32.two) = false).
  { destruct Hh as [->|(m & e & -> & _)]; [reflexivity|].
    unfold F32.gtb. now rewrite SFcompare_refl_pos. }
  unfold Filter.calculateAlpha. rewrite Hgt, Habs, Hself. reflexivity.
Qed.

Lemma alpha_clamps_to_half_rate_witness :
  Filter.calculateAlpha (S754_infinity true) (f32 48000)
  = Filter.calculateAlpha (f32 24000) (f32 48000).
Proof.
  apply (alpha_clamps_to_half_rate (S754_infinity true) (f32 48000)); reflexivity.
Defined.

(** X14: [calculateAlpha] has no guard against a NaN cutoff or a zero
    sample rate: a NaN cutoff gives NaN at every sample rate, and a sample
    rate of zero (of either sign) gives NaN for every cutoff. *)
Theorem alpha_is_nan_without_guard :
  (forall sr, Filter.calculateAlpha S754_nan sr = S754_nan) /\
  (forall cutoff s, Filter.calculateAlpha cutoff (S754_zero s) = S754_nan).
Proof.
  split; [exact calculateAlpha_nan|].
  intros [[|]|[|]| |[|] m e] [|]; reflexivity.
Qed.

(** The coefficient of a zero cutoff. *)
Lemma calculateAlpha_zero s sr :
  F32.valid sr = true -> is_finite_pos sr = true ->
  Filter.calculateAlpha (S754_zero s) sr = F32.zero.
Proof.
  intros Hv Hp.
  destruct sr as [| | |[|] ms es]; try discriminate Hp.
  pose proof (half_bound ms es Hv) as Hh.
  destruct (to_double_exact false ms es Hv) as (md & ed & Hd & _).
  unfold Filter.calculateAlpha. cbn [F32.fabs SFabs].
  assert (Hg : F32.gtb (S754_zero false)
                       (F32.div (S754_finite false ms es) F32.two) = false).
  { destruct Hh as [->|(m & e & -> & _)]; reflexivity. }
  rewrite Hg, Hd. reflexivity.
Qed.

(** X15: at every finite positive sample rate a cutoff of zero (the
    default of the knob) gives the coefficient [+0] exactly. *)
Theorem alpha_of_zero_cutoff s sr :
  F32.valid sr = true -> is_finite_pos sr = true ->
  Filter.calculateAlpha (S754_zero s) sr = F32.zero.
Proof.
  intros Hv Hp.
  destruct sr as [| | |[|] ms es]; try discriminate Hp.
  pose proof (half_bound ms es Hv) as Hh.
  destruct (to_double_exact false ms es Hv) as (md & ed & Hd & _).
  unfold Filter.calculateAlpha. cbn [F32.fabs SFabs].
  assert (Hg : F32.gtb (S754_zero false)
                       (F32.div (S754_finite false ms es) F32.two) = false).
  { destruct Hh as [->|(m & e & -> & _)]; reflexivity. }
  rewrite Hg, Hd. reflexivity.
Qed.

Lemma alpha_of_zero_cutoff_witness :
  Filter.calculateAlpha (f32 0) (f32 44100) = F32.zero.
Proof. apply (alpha_of_zero_cutoff false (f32 44100)); reflexivity. Defined.

Lemma SFabs_binary_round prec emax s1 s2 m e :
  SFabs (binary_round prec emax s1 m e) = SFabs (binary_round prec emax s2 m e).
Proof.
  unfold binary_round, binary_round_aux.
  destruct (shl_align _ _ _) as [mz ez].
  destruct (shr_fexp _ _ _ _ _) as [mrs' e'].
  destruct (shr_fexp _ _ _ _ _) as [mrs'' e''].
  destruct (shr_m mrs''); [reflexivity| |reflexivity].
  destruct (Z.leb _ _); reflexivity.
Qed.

Lemma SFabs_binary_normalize_opp prec emax M e :
  SFabs (binary_normalize prec emax (- M) e false)
  = SFabs (binary_normalize prec emax M e false).
Proof.
  destruct M as [|p|p]; cbn [Z.opp binary_normalize];
    [reflexivity|apply SFabs_binary_round|apply SFabs_binary_round].
Qed.

Lemma SFabs_sub_opp prec emax x sy my ey :
  SFabs (SFsub prec emax (SFopp x) (S754_finite sy my ey))
  = SFabs (SFadd prec emax x (S754_finite sy my ey)).
Proof.
  destruct x as [s|s| |sx mx ex]; try reflexivity.
  cbn [SFopp SFsub SFadd].
  match goal with
  | |- SFabs (binary_normalize _ _ ?a _ _) = SFabs (binary_normalize _ _ ?b _ _) =>
      replace a with (- b) by (destruct sx, sy; cbn [negb cond_Zopp]; lia)
  end.
  apply SFabs_binary_normalize_opp.
Qed.

Lemma SFabs_add_opp prec emax x sy my ey :
  SFabs (SFadd prec emax (SFopp x) (S754_finite sy my ey))
  = SFabs (SFsub prec emax x (S754_finite sy my ey)).
Proof.
  destruct x as [s|s| |sx mx ex]; try reflexivity.
  cbn [SFopp SFsub SFadd].
  match goal with
  | |- SFabs (binary_normalize _ _ ?a _ _) = SFabs (binary_normalize _ _ ?b _ _) =>
      replace a with (- b) by (destruct sx, sy; cbn [negb cond_Zopp]; lia)
  end.
  apply SFabs_binary_normalize_opp.
Qed.

Lemma calculateAlpha_opp c sr :
  Filter.calculateAlpha (SFopp c) sr = Filter.calculateAlpha c sr.
Proof.
  unfold Filter.calculateAlpha, F32.fabs.
  replace (SFabs (SFopp c)) with (SFabs c) by (now destruct c). reflexivity.
Qed.

(** X16: negating the cutoff parameter changes nothing for the low-pass
    and high-pass stages, and exchanges the two cutoffs of the band-pass
    stage: [|-c - 5| = |c + 5|] and [|-c + 5| = |c - 5|] hold exactly. *)
Theorem negated_cutoff f s c :
  Filter.ApplyLowPass (withCutoff f (SFopp c)) s
    = Filter.ApplyLowPass (withCutoff f c) s /\
  Filter.ApplyHighPass (withCutoff f (SFopp c)) s
    = Filter.ApplyHighPass (withCutoff f c) s /\
  F32.fabs (F32.sub (SFopp c) (F32.of_int 5)) = F32.fabs (F32.add c (F32.of_int 5)) /\
  F32.fabs (F32.add (SFopp c) (F32.of_int 5)) = F32.fabs (F32.sub c (F32.of_int 5)).
Proof.
  split; [|split; [|split]].
  - unfold Filter.ApplyLowPass, withCutoff.
    cbn [Filter.out_connected Filter.FRQ_PARAM]. now rewrite calculateAlpha_opp.
  - unfold Filter.ApplyHighPass, withCutoff.
    cbn [Filter.out_connected Filter.FRQ_PARAM]. now rewrite calculateAlpha_opp.
  - apply SFabs_sub_opp.
  - apply SFabs_add_opp.
Qed.

(** Multiplication by [1.0f] is exact. *)
Lemma mul_one_exact x :
  F32.valid x = true -> is_finite x = true -> F32.mul F32.one x = x.
Proof.
  intros Hv Hf. destruct x as [s| | |s m e]; try discriminate Hf; [reflexivity|].
  unfold F32.mul, F32.one. cbn [SFmul xorb].
  pose proof (bounded_canonical _ _ _ _ Hv) as [Hc Hle].
  assert (Hm : Z.pos (8388608 * m) = Z.pos m * 2 ^ 23) by (rewrite Pos2Z.inj_mul; lia).
  assert (Hd : Zdigits2 (Z.pos (8388608 * m)) = Zdigits2 (Z.pos m) + 23)
    by (rewrite Hm; apply Zdigits2_mul_pow; lia).
  destruct (binary_round_aux_spec F32.prec F32.emax f32_prec s
              (Z.pos (8388608 * m)) (-23 + e) loc_Exact ltac:(lia)) as (m1 & Hm1 & Hres).
  { rewrite Hd. replace (Zdigits2 (Z.pos m) + 23 + (-23 + e))
      with (Zdigits2 (Z.pos m) + e) by lia. lia. }
  rewrite Hd in Hm1, Hres.
  replace (Zdigits2 (Z.pos m) + 23 + (-23 + e)) with (Zdigits2 (Z.pos m) + e)
    in Hm1, Hres by lia.
  rewrite Hc in Hm1, Hres. replace (e - (-23 + e)) with 23 in Hm1 by lia.
  rewrite Hm, Z.div_mul, Z.mod_mul in Hm1 by lia.
  assert (E1 : m1 = Z.pos m).
  { destruct Hm1 as [H|[_ [H|H]]]; [exact H|congruence|congruence]. }
  clear Hm1. subst m1.
  destruct (binary_round_aux F32.prec F32.emax s (Z.pos (8388608 * m)) (-23 + e)
              loc_Exact) as [s'|s'| |s' m' e'].
  - destruct Hres; lia.
  - destruct Hres as (_ & _ & H). rewrite Hc in H. lia.
  - contradiction.
  - destruct Hres as (-> & Hb & Hee & Hval).
    pose proof (bounded_canonical _ _ _ _ Hb) as [Hc' _].
    assert (Hd' : Zdigits2 (Z.pos m) = Zdigits2 (Z.pos m') + (e' - e))
      by (rewrite Hval; apply Zdigits2_mul_pow; lia).
    assert (Ee : e' = e).
    { rewrite <- Hc', <- Hc. f_equal. lia. }
    subst e'. rewrite Z.sub_diag in Hval. f_equal. lia.
Qed.

Lemma sameNumber_trans z y x : sameNumber z y -> sameNumber y x -> sameNumber z x.
Proof.
  intros [->|[Hz Hy]] [->|[Hy' Hx]]; unfold sameNumber; auto.
Qed.

(** One lane of the low-pass loop with the coefficient 0. *)
Lemma lowPass_lane_holds x p :
  is_finite x = true -> F32.valid p = true -> is_finite p = true ->
  let y := F32.add (F32.mul F32.zero x)
                   (F32.mul (F32.sub F32.one F32.zero) p) in
  sameNumber y p /\ F32.valid y = true /\ is_finite y = true.
Proof.
  intros Hx Hv Hp y. subst y.
  change (F32.sub F32.one F32.zero) with F32.one.
  rewrite (mul_one_exact p Hv Hp).
  destruct x as [sx| | |sx mx ex]; try discriminate Hx;
    destruct p as [sp| | |sp mp ep]; try discriminate Hp;
    cbn [F32.mul F32.zero SFmul xorb F32.add SFadd].
  - destruct sx, sp; (split; [right; split; reflexivity|split; reflexivity]).
  - split; [left; reflexivity|split; [exact Hv|reflexivity]].
  - destruct sx, sp; (split; [right; split; reflexivity|split; reflexivity]).
  - split; [left; reflexivity|split; [exact Hv|reflexivity]].
Qed.

Lemma lowPassLoop_holds : forall vs p,
  forallb is_finite vs = true -> F32.valid p = true -> is_finite p = true ->
  Forall (fun y => sameNumber y p) (fst (Filter.lowPassLoop F32.zero vs p)) /\
  sameNumber (snd (Filter.lowPassLoop F32.zero vs p)) p.
Proof.
  induction vs as [|x vs IH]; intros p Hvs Hv Hp.
  - split; [constructor|left; reflexivity].
  - cbn [forallb] in Hvs. apply andb_prop in Hvs. destruct Hvs as [Hx Hvs].
    destruct (lowPass_lane_holds x p Hx Hv Hp) as (Hs & Hv' & Hp').
    cbv zeta in Hs, Hv', Hp'. cbn [Filter.lowPassLoop].
    specialize (IH _ Hvs Hv' Hp').
    destruct (Filter.lowPassLoop F32.zero vs _) as [ys q]. cbn [fst snd] in *.
    destruct IH as [IH1 IH2]. split.
    + constructor; [exact Hs|].
      eapply Forall_impl; [|exact IH1]. intros z Hz. cbv beta in Hz.
      exact (sameNumber_trans _ _ _ Hz Hs).
    + exact (sameNumber_trans _ _ _ IH2 Hs).
Qed.

(** X17: with the cutoff at zero (the default of the knob) the low-pass
    stage holds its state: at every finite positive sample rate, for a
    buffer of finite lanes and a finite [prevLowPassSample], every lane it
    writes and the [prevLowPassSample] it leaves equal the
    [prevLowPassSample] it started from (up to the sign of a zero); from
    the initial state the low-pass output is therefore zero. *)
Theorem low_pass_holds_at_zero_cutoff f s sg :
  Filter.out_connected f Filter.OUT_1_OUTPUT = true ->
  Filter.FRQ_PARAM f = S754_zero sg ->
  F32.valid (Filter.sampleRate s) = true ->
  is_finite_pos (Filter.sampleRate s) = true ->
  forallb is_finite (Filter.voltages s) = true ->
  F32.valid (Filter.prevLowPassSample s) = true ->
  is_finite (Filter.prevLowPassSample s) = true ->
  Forall (fun y => sameNumber y (Filter.prevLowPassSample s))
         (Filter.voltages (fst (Filter.ApplyLowPass f s))) /\
  sameNumber (Filter.prevLowPassSample (fst (Filter.ApplyLowPass f s)))
             (Filter.prevLowPassSample s).
Proof.
  intros Hc Hf Hv Hp Hvs Hpv Hpf.
  unfold Filter.ApplyLowPass. rewrite Hc, Hf. cbn [negb].
  rewrite (calculateAlpha_zero sg _ Hv Hp).
  pose proof (lowPassLoop_holds _ _ Hvs Hpv Hpf) as H.
  destruct (Filter.lowPassLoop F32.zero _ _) as [ys q]. exact H.
Qed.

Lemma low_pass_holds_at_zero_cutoff_witness :
  let f := filterFrame 0 0 F32.one in
  let s := filterState [f32 4; f32 2] in
  Filter.voltages (fst (Filter.ApplyLowPass f s)) = [F32.zero; F32.zero].
Proof.
  intros f s.
  destruct (low_pass_holds_at_zero_cutoff f s false
              eq_refl eq_refl eq_refl eq_refl eq_refl eq_refl eq_refl) as [_ _].
  reflexivity.
Defined.

(** X18: a powered-on frame with no mode active and no channels counted
    (as right after the first power-on) makes no call on the output port:
    the port is neither written nor set to 0 channels. *)
Theorem idle_frame_without_channels f s :
  Pass.state_on (fst (Pass.updatePowerState f s)) = true ->
  Pass.state_on_sum (fst (Pass.updateModeStates f (fst (Pass.updatePowerState f s))))
    = false ->
  Pass.state_on_avg (fst (Pass.updateModeStates f (fst (Pass.updatePowerState f s))))
    = false ->
  Pass.num_channels s <= 0 ->
  filter isPortCall (snd (Pass.process f s)) = [] /\
  Pass.voltages (fst (Pass.process f s)) = Pass.voltages s.
Proof.
  intros Hon Hsum Havg Hn. rewrite (idle_process f s Hon Hsum Havg). cbn [fst snd].
  rewrite updatePowerState_log, updateModeStates_log.
  replace (0 <? Pass.num_channels s) with false by (symmetry; apply Z.ltb_ge; lia).
  split; [reflexivity|].
  now destruct (updateModeStates_buffer f (fst (Pass.updatePowerState f s))).
Qed.

Lemma idle_frame_without_channels_witness :
  let f := passFrame 1 0 0 (monoInput (f32 4)) noInput noInput in
  filter isPortCall (snd (Pass.process f Pass.init)) = [].
Proof.
  intros f.
  apply (idle_frame_without_channels f Pass.init);
    first [reflexivity | discriminate].
Defined.
